(** * VOICEVOX ENGINE: the kana notation and the HTTP layer of [run.py]

    The development has two parts, each with its definitions first and its
    facts after them.

    - [KanaParser] and [Canonical]: the AquesTalk-like kana notation.
      [run.py] only imports [parse_kana] and [create_kana] from
      [voicevox_engine.kana_parser]; the module is modelled here from the
      written specification of the notation (tokenizer, mora builder,
      accent-phrase assembler, serializer).  Facts in [KanaFacts].
    - [Http]: the handlers that [generate_app] of [run.py] registers, as
      computations in a small monad with an explicit world (the memoization
      cache and the log of calls made to collaborators) and Python
      exceptions.  Facts in [HttpFacts].

    [Sample] is a small concrete instance on which the facts are tried.

    A Python [str] that the notation indexes by character is a list of Unicode
    code points; messages and dictionary keys are byte strings. *)

From stdpp Require Import base option list gmap strings.
From Stdlib Require Import QArith_base.

#[local] Open Scope nat_scope.

(** A Unicode code point. *)
Definition char := N.

(** Numeric durations and pitches. *)
Definition number := Q.

(** Phoneme identifiers, such as [k], [a] or [N]. *)
Definition phoneme := string.

(** ** Data model *)

(** Modelled from the spec: [Mora] of the absent [model] module, one
    phonetic unit (section 3).  [unvoiced] is the engine's marking of the
    vowel as unvoiced, which section 4.4 treats as an attribute of the mora
    that is never re-derived. *)
Record Mora := mkMora {
  text : list char;
  consonant : option phoneme;
  consonant_length : option number;
  vowel : phoneme;
  unvoiced : bool;
  vowel_length : option number;
  pitch : option number
}.

(** Modelled from the spec: [AccentPhrase] of the absent [model] module,
    an ordered sequence of moras sharing one pitch-accent contour
    (section 3). *)
Record AccentPhrase := mkAccentPhrase {
  moras : list Mora;
  accent : nat;
  pause_mora : option Mora;
  is_interrogative : bool
}.

(** Modelled from the spec: the six error kinds of sections 4.1-4.3. *)
Inductive ErrorName :=
| UnknownCharacter
| MissingAccentMark
| MultipleAccentMarks
| EmptyPhrase
| DevoicingOnInvalidMora
| InterrogativeMarkMisplaced.

(** Modelled from the spec: [ParseKanaError] of the absent [model] module,
    the failure contract of section 3: a message, the kind, and the
    character offset in the original input. *)
Record ParseKanaError := mkParseKanaError {
  message : string;
  error_name : ErrorName;
  position : nat
}.

#[global] Instance Q_eq_dec : EqDecision Q.
Proof. solve_decision. Defined.
#[global] Instance Mora_eq_dec : EqDecision Mora.
Proof. solve_decision. Defined.
#[global] Instance AccentPhrase_eq_dec : EqDecision AccentPhrase.
Proof. solve_decision. Defined.
#[global] Instance ErrorName_eq_dec : EqDecision ErrorName.
Proof. solve_decision. Defined.
#[global] Instance ParseKanaError_eq_dec : EqDecision ParseKanaError.
Proof. solve_decision. Defined.

Module KanaParser.

(** ** The symbols of the notation

    Modelled from the spec: the reserved characters of the grammar table of
    section 6, as code points. *)

Definition ACCENT_MARK : char := 39%N.          (* ' *)
Definition DEVOICE_MARK : char := 95%N.         (* _ *)
Definition PLAIN_DELIMITER : char := 47%N.      (* / *)
Definition PAUSE_DELIMITER : char := 12289%N.   (* U+3001 *)
Definition INTERROGATIVE_MARK : char := 65311%N. (* U+FF1F, full width *)
Definition LONG_VOWEL_MARK : char := 12540%N.   (* U+30FC *)

(** Modelled from the spec: the classified units of section 4.1, which the
    absent [kana_parser] module produces.  A [KanaMora] carries the matched
    katakana token and the phoneme pair the lookup table gives it;
    [Unknown] stands for a character that no rule classifies. *)
Inductive token :=
| AccentMark
| Devoice
| PlainDelimiter
| PauseDelimiter
| Interrogative
| LongVowelExtension
| KanaMora (kana : list char) (ph : option phoneme * phoneme)
| Unknown.

#[global] Instance token_eq_dec : EqDecision token.
Proof. solve_decision. Defined.

(** Modelled from the spec: the first six classification rules of section
    4.1, one reserved character each. *)
Definition classify (c : char) : option token :=
  if (c =? ACCENT_MARK)%N then Some AccentMark
  else if (c =? DEVOICE_MARK)%N then Some Devoice
  else if (c =? PLAIN_DELIMITER)%N then Some PlainDelimiter
  else if (c =? PAUSE_DELIMITER)%N then Some PauseDelimiter
  else if (c =? INTERROGATIVE_MARK)%N then Some Interrogative
  else if (c =? LONG_VOWEL_MARK)%N then Some LongVowelExtension
  else None.

(** Modelled from the spec: the reserved characters are those of the six
    rules. *)
Definition is_marker (c : char) : bool :=
  match classify c with Some _ => true | None => false end.

(** Modelled from the spec: the characters from here up to the next
    reserved character.  Those are classified before any table lookup
    (section 4.1, priority order), so a katakana token lies inside this
    run. *)
Fixpoint kana_run (s : list char) : list char :=
  match s with
  | [] => []
  | c :: r => if is_marker c then [] else c :: kana_run r
  end.

(** Modelled from the spec: the written form of a unit (section 6). *)
Definition spell (u : token) : list char :=
  match u with
  | AccentMark => [ACCENT_MARK]
  | Devoice => [DEVOICE_MARK]
  | PlainDelimiter => [PLAIN_DELIMITER]
  | PauseDelimiter => [PAUSE_DELIMITER]
  | Interrogative => [INTERROGATIVE_MARK]
  | LongVowelExtension => [LONG_VOWEL_MARK]
  | KanaMora kana _ => kana
  | Unknown => []
  end.

Definition is_kana_token (u : token) : bool :=
  match u with KanaMora _ _ => true | _ => false end.

Section Parser.

(** Modelled from the spec: the Phoneme Lookup Table of section 2, a static
    mapping from katakana tokens to phoneme pairs (optional consonant,
    vowel).  Its contents are external data. *)
Context (table : gmap (list char) (option phoneme * phoneme)).

(** Modelled from the spec: the silence phoneme of the synthesized pause
    mora (section 4.3). *)
Context (silence : phoneme).

(** Modelled from the spec: the human-readable message of each error kind
    (section 3); the spec does not fix the wording. *)
Context (describe : ErrorName → string).

(** *** Notation Tokenizer (section 4.1) *)

(** Modelled from the spec: longest match first (sections 4.1 and 9); the
    prefixes of [s] of length [n], [n - 1], ..., 1 are looked up in the
    table in turn. *)
Fixpoint match_upto (n : nat) (s : list char)
  : option (list char * (option phoneme * phoneme)) :=
  match n with
  | O => None
  | S m =>
      match table !! take n s with
      | Some ph => Some (take n s, ph)
      | None => match_upto m s
      end
  end.

(** Modelled from the spec: the longest token of the table that [s] starts
    with. *)
Definition longest_match (s : list char) := match_upto (length s) s.

(** Modelled from the spec: the Notation Tokenizer of section 4.1.  It scans
    left to right and keeps the character offset of every unit; [skip]
    counts the characters of a multi-character token still to pass over.
    An unclassifiable character ends the scan with an [Unknown] unit at its
    offset, so that the failure is raised in input order. *)
Fixpoint scan (skip pos : nat) (s : list char) : list (token * nat) :=
  match s with
  | [] => []
  | c :: r =>
      match skip with
      | S k => scan k (S pos) r
      | O =>
          match classify c with
          | Some u => (u, pos) :: scan 0 (S pos) r
          | None =>
              match longest_match (kana_run s) with
              | Some (kana, ph) =>
                  (KanaMora kana ph, pos) :: scan (length kana - 1) (S pos) r
              | None => [(Unknown, pos)]
              end
          end
      end
  end.

(** Modelled from the spec: the tokenizer starts at offset 0. *)
Definition tokenize (s : list char) : list (token * nat) := scan 0 0 s.

(** *** Mora Builder and Accent-Phrase Assembler (sections 4.2 and 4.3) *)

(** Modelled from the spec: each KanaMora becomes one mora with the
    looked-up phoneme pair (section 4.2); a pending devoicing mark makes it
    unvoiced; the numeric fields are absent at parse time (section 3). *)
Definition build_mora (kana : list char) (ph : option phoneme * phoneme)
    (devoiced : bool) : Mora :=
  {| text := kana; consonant := ph.1; consonant_length := None;
     vowel := ph.2; unvoiced := devoiced;
     vowel_length := None; pitch := None |}.

(** Modelled from the spec: the synthesized silent mora of section 4.3:
    empty text, silence vowel, no consonant. *)
Definition silent_mora : Mora :=
  {| text := []; consonant := None; consonant_length := None;
     vowel := silence; unvoiced := false;
     vowel_length := None; pitch := None |}.

(** Modelled from the spec: a LongVowelExtension rewrites the vowel
    duration marker onto the previous mora (section 4.2).  The mark is
    written onto the spelling of that mora, which is the only field the
    serializer of section 4.4 can write it back from. *)
Definition extend_mora (m : Mora) : Mora :=
  {| text := text m ++ [LONG_VOWEL_MARK]; consonant := consonant m;
     consonant_length := consonant_length m; vowel := vowel m;
     unvoiced := unvoiced m; vowel_length := vowel_length m;
     pitch := pitch m |}.

(** Modelled from the spec: the previous mora is the last one of the open
    phrase. *)
Fixpoint extend_last (ms : list Mora) : list Mora :=
  match ms with
  | [] => []
  | [m] => [extend_mora m]
  | m :: r => m :: extend_last r
  end.

(** Modelled from the spec: the state of the assembler.  The four states of
    the state-machine view of section 4.3 are read off it: StartOfPhrase is
    [cur = []], InPhrase is a non-empty [cur] without accent,
    AfterAccentMark is [acc = Some _], and AfterInterrogative is
    [question = Some _]. *)
Record state := mkState {
  finished : list AccentPhrase;  (* the phrases closed so far *)
  cur : list Mora;               (* the moras of the open phrase *)
  acc : option nat;              (* its accent, once marked *)
  start : nat;                   (* offset at which the open phrase starts *)
  pending : option nat;          (* offset of a Devoice unit not yet used *)
  question : option nat          (* offset of the Interrogative unit *)
}.

(** Modelled from the spec: a new phrase starts at input start. *)
Definition initial : state :=
  {| finished := []; cur := []; acc := None; start := 0;
     pending := None; question := None |}.

(** Modelled from the spec: every failure is one structured error value
    (section 4.5). *)
Definition failure (k : ErrorName) (pos : nat) : ParseKanaError :=
  {| message := describe k; error_name := k; position := pos |}.

(** Modelled from the spec: closing the open phrase at a delimiter or at
    end of input (section 4.3); [pos] is the offset of the closing unit.  A
    phrase with zero moras is an EmptyPhrase at that offset, a phrase
    without accent mark a MissingAccentMark at the phrase start. *)
Definition close (st : state) (pause : bool) (pos : nat)
  : ParseKanaError + state :=
  match cur st with
  | [] => inl (failure EmptyPhrase pos)
  | _ :: _ =>
      match acc st with
      | None => inl (failure MissingAccentMark (start st))
      | Some a =>
          inr {| finished := finished st ++
                   [{| moras := cur st; accent := a;
                       pause_mora := if pause then Some silent_mora else None;
                       is_interrogative := bool_decide (is_Some (question st)) |}];
                 cur := []; acc := None; start := S pos;
                 pending := None; question := None |}
      end
  end.

(** Modelled from the spec: one transition of the assembler of sections 4.2
    and 4.3 on the unit [u] found at offset [pos].  The spec names no error
    kind for an accent mark or a long-vowel mark that has no mora before it
    in the phrase; the phrase is still empty at that point and
    [EmptyPhrase] is reported at the offset of the mark. *)
Definition step (st : state) (u : token) (pos : nat)
  : ParseKanaError + state :=
  match u with
  | Unknown => inl (failure UnknownCharacter pos)
  | _ =>
  match question st with
  | Some q =>
      match u with
      | PlainDelimiter => close st false pos
      | PauseDelimiter => close st true pos
      | _ => inl (failure InterrogativeMarkMisplaced q)
      end
  | None =>
  match pending st with
  | Some d =>
      match u with
      | KanaMora kana ph =>
          inr {| finished := finished st;
                 cur := cur st ++ [build_mora kana ph true];
                 acc := acc st; start := start st;
                 pending := None; question := None |}
      | _ => inl (failure DevoicingOnInvalidMora d)
      end
  | None =>
      match u with
      | AccentMark =>
          match cur st, acc st with
          | [], _ => inl (failure EmptyPhrase pos)
          | _ :: _, Some _ => inl (failure MultipleAccentMarks pos)
          | _ :: _, None =>
              inr {| finished := finished st; cur := cur st;
                     acc := Some (length (cur st)); start := start st;
                     pending := None; question := None |}
          end
      | Devoice =>
          inr {| finished := finished st; cur := cur st; acc := acc st;
                 start := start st; pending := Some pos; question := None |}
      | LongVowelExtension =>
          match cur st with
          | [] => inl (failure EmptyPhrase pos)
          | _ :: _ =>
              inr {| finished := finished st; cur := extend_last (cur st);
                     acc := acc st; start := start st;
                     pending := None; question := None |}
          end
      | KanaMora kana ph =>
          inr {| finished := finished st;
                 cur := cur st ++ [build_mora kana ph false];
                 acc := acc st; start := start st;
                 pending := None; question := None |}
      | Interrogative =>
          inr {| finished := finished st; cur := cur st; acc := acc st;
                 start := start st; pending := None; question := Some pos |}
      | PlainDelimiter => close st false pos
      | PauseDelimiter => close st true pos
      | Unknown => inl (failure UnknownCharacter pos)
      end
  end
  end
  end.

(** Modelled from the spec: end of input closes the last phrase without a
    pause mora (section 4.3).  A new phrase starts after every delimiter,
    so after a trailing delimiter the phrase closed here is empty. *)
Definition finish (st : state) (len : nat)
  : ParseKanaError + list AccentPhrase :=
  match pending st with
  | Some d => inl (failure DevoicingOnInvalidMora d)
  | None =>
      match close st false len with
      | inl e => inl e
      | inr st' => inr (finished st')
      end
  end.

(** Modelled from the spec: the units are consumed in input order and the
    first failing transition aborts the parse (section 4.3); [len] is the
    length of the input, the offset of its end. *)
Fixpoint assemble (st : state) (len : nat) (us : list (token * nat))
  : ParseKanaError + list AccentPhrase :=
  match us with
  | [] => finish st len
  | (u, pos) :: r =>
      match step st u pos with
      | inl e => inl e
      | inr st' => assemble st' len r
      end
  end.

(** Modelled from the spec: [parse], the forward direction of section 2:
    raw text, tokenizer, mora builder, accent-phrase assembler. *)
Definition parse_kana (s : list char) : ParseKanaError + list AccentPhrase :=
  assemble initial (length s) (tokenize s).

End Parser.

(** *** Serializer (section 4.4) *)

(** Modelled from the spec: the moras of one phrase (section 4.4), each
    with the devoicing mark before it if it is unvoiced and the accent mark
    after it if it is the mora at [accent]; [i] counts the moras already
    written, so the mora written next has the 1-indexed position [S i]. *)
Fixpoint emit_moras (i a : nat) (ms : list Mora) : list char :=
  match ms with
  | [] => []
  | m :: r =>
      (if unvoiced m then [DEVOICE_MARK] else []) ++ text m ++
      (if S i =? a then [ACCENT_MARK] else []) ++ emit_moras (S i) a r
  end.

(** Modelled from the spec: the interrogative mark is appended at the end
    of the phrase. *)
Definition emit_phrase (p : AccentPhrase) : list char :=
  emit_moras 0 (accent p) (moras p) ++
  (if is_interrogative p then [INTERROGATIVE_MARK] else []).

(** Modelled from the spec: the delimiter written after a phrase. *)
Definition delimiter_of (p : AccentPhrase) : char :=
  match pause_mora p with
  | Some _ => PAUSE_DELIMITER
  | None => PLAIN_DELIMITER
  end.

(** Modelled from the spec: [create], the serializer of section 4.4.
    Phrases are joined with the pause delimiter when the phrase before it
    has a pause mora and with the plain delimiter otherwise; nothing follows
    the last phrase. *)
Fixpoint create_kana (ps : list AccentPhrase) : list char :=
  match ps with
  | [] => []
  | [p] => emit_phrase p
  | p :: r => emit_phrase p ++ [delimiter_of p] ++ create_kana r
  end.

End KanaParser.

(** ** Canonical form of a list of accent phrases *)

Module Canonical.
Import KanaParser.

(** The grammar-relevant view of a mora: the numeric fields, which later
    stages fill in, are cleared. *)
Definition bare_mora (m : Mora) : Mora :=
  {| text := text m; consonant := consonant m; consonant_length := None;
     vowel := vowel m; unvoiced := unvoiced m;
     vowel_length := None; pitch := None |}.

(** Two moras with the same identity: spelling, phonemes, voicing. *)
Definition same_mora (m m' : Mora) : Prop :=
  text m = text m' ∧ consonant m = consonant m' ∧
  vowel m = vowel m' ∧ unvoiced m = unvoiced m'.

(** Equality in the fields the grammar consumes: mora identity, accent
    index, presence of a pause mora, interrogative flag. *)
Definition same_phrase (p q : AccentPhrase) : Prop :=
  Forall2 same_mora (moras p) (moras q) ∧ accent p = accent q ∧
  (is_Some (pause_mora p) ↔ is_Some (pause_mora q)) ∧
  is_interrogative p = is_interrogative q.

Definition grammar_equal (ps qs : list AccentPhrase) : Prop :=
  Forall2 same_phrase ps qs.

(** The accent invariant of the data model. *)
Definition valid_accent (p : AccentPhrase) : Prop :=
  1 ≤ accent p ≤ length (moras p).

(** The positions of a phrase that carry the accent. *)
Definition accent_positions (p : AccentPhrase) : list nat :=
  filter (λ i, i = accent p) (seq 1 (length (moras p))).

(** The units a mora is written with: the devoicing mark if it is unvoiced,
    its katakana token, and one long-vowel mark for every character of its
    text after the token. *)
Definition mora_tokens (m : Mora) : list token :=
  (if unvoiced m then [Devoice] else []) ++
  KanaMora (kana_run (text m)) (consonant m, vowel m) ::
  replicate (length (text m) - length (kana_run (text m))) LongVowelExtension.

Fixpoint moras_tokens (i a : nat) (ms : list Mora) : list token :=
  match ms with
  | [] => []
  | m :: r =>
      mora_tokens m ++ (if S i =? a then [AccentMark] else []) ++
      moras_tokens (S i) a r
  end.

Definition phrase_tokens (p : AccentPhrase) : list token :=
  moras_tokens 0 (accent p) (moras p) ++
  (if is_interrogative p then [Interrogative] else []).

Definition delimiter_token (p : AccentPhrase) : token :=
  match pause_mora p with
  | Some _ => PauseDelimiter
  | None => PlainDelimiter
  end.

(** The units of the canonical notation of a list of phrases. *)
Fixpoint tokens_of (ps : list AccentPhrase) : list token :=
  match ps with
  | [] => []
  | [p] => phrase_tokens p
  | p :: r => phrase_tokens p ++ delimiter_token p :: tokens_of r
  end.

(** The katakana written from here on without a mark in between. *)
Fixpoint lead (us : list token) : list char :=
  match us with
  | KanaMora kana _ :: r => kana ++ lead r
  | _ => []
  end.

(** Two results of the same kind, successes related by [R]. *)
Definition agree {E A} (R : A → A → Prop) (x y : E + A) : Prop :=
  match x, y with
  | inr a, inr b => R a b
  | inl _, inl _ => True
  | _, _ => False
  end.

(** A unit at offset 0. *)
Definition zero (u : token) : token * nat := (u, 0).

(** The state at the start of a phrase. *)
Definition fresh (f : list AccentPhrase) (s0 : nat) : state :=
  {| finished := f; cur := []; acc := None; start := s0;
     pending := None; question := None |}.

Ltac fields :=
  cbn [finished cur acc start pending question
       moras accent pause_mora is_interrogative] in *.

(** The same cut read off the units. *)
Fixpoint token_closers (us : list token) : list bool :=
  match us with
  | [] => [false]
  | PauseDelimiter :: r => true :: token_closers r
  | PlainDelimiter :: r => false :: token_closers r
  | _ :: r => token_closers r
  end.

(** How the input is cut into phrases: one entry per phrase in input order,
    [true] when the phrase is closed by the pause delimiter and [false]
    when it is closed by the plain delimiter or, for the last entry, by the
    end of the input. *)
Fixpoint closers (s : list char) : list bool :=
  match s with
  | [] => [false]
  | c :: r =>
      if (c =? PAUSE_DELIMITER)%N then true :: closers r
      else if (c =? PLAIN_DELIMITER)%N then false :: closers r
      else closers r
  end.

Section WithTable.

Context (table : gmap (list char) (option phoneme * phoneme)).
Context (silence : phoneme).

(** A mora of the table: its text is a non-empty token of the table,
    followed by long-vowel marks only, and its phonemes are the pair the
    table gives the token. *)
Definition table_mora (m : Mora) : Prop :=
  kana_run (text m) ≠ [] ∧
  table !! kana_run (text m) = Some (consonant m, vowel m) ∧
  text m = kana_run (text m) ++
    replicate (length (text m) - length (kana_run (text m))) LONG_VOWEL_MARK.

(** Every katakana token is the one longest match finds at its place. *)
Fixpoint segmented (us : list token) : bool :=
  match us with
  | [] => true
  | u :: r =>
      match u with
      | KanaMora kana ph =>
          bool_decide (longest_match table (lead us) = Some (kana, ph))
      | _ => true
      end && segmented r
  end.

Definition canonical_phrase (p : AccentPhrase) : Prop :=
  Forall table_mora (moras p) ∧ valid_accent p.

(** The lists of phrases that the notation can express: at least one
    phrase, every phrase made of moras of the table with a valid accent, no
    pause mora on the last phrase, and katakana that longest match cuts
    back into the same tokens. *)
Definition canonical (ps : list AccentPhrase) : Prop :=
  ps ≠ [] ∧ Forall canonical_phrase ps ∧
  (∀ p, last ps = Some p → pause_mora p = None) ∧
  segmented (tokens_of ps) = true.

(** What parsing the notation of a phrase gives back: numeric fields
    absent, and the synthesized silent mora where a pause mora was. *)
Definition bare_phrase (p : AccentPhrase) : AccentPhrase :=
  {| moras := bare_mora <$> moras p; accent := accent p;
     pause_mora := match pause_mora p with
                   | Some _ => Some (silent_mora silence)
                   | None => None
                   end;
     is_interrogative := is_interrogative p |}.

(** The units of the phrases closed so far, of the open phrase, and of the
    marks read but not yet used. *)
Definition closed_tokens (ps : list AccentPhrase) : list token :=
  ps ≫= λ p, phrase_tokens p ++ [delimiter_token p].

Definition state_tokens (st : state) : list token :=
  closed_tokens (finished st) ++
  moras_tokens 0 (default 0 (acc st)) (cur st) ++
  match pending st with Some _ => [Devoice] | None => [] end ++
  match question st with Some _ => [Interrogative] | None => [] end.

(** The units of a notation without unknown characters: a katakana token
    is a non-empty key of the table without reserved characters. *)
Definition good_token (u : token) : Prop :=
  match u with
  | KanaMora kana ph =>
      kana ≠ [] ∧ Forall (λ c, is_marker c = false) kana ∧
      table !! kana = Some ph
  | Unknown => False
  | _ => True
  end.

Definition scanned_token (u : token) : Prop := u = Unknown ∨ good_token u.

Context (describe : ErrorName → string).

(** The transitions of the assembler over a list of units, without the
    closing of the last phrase. *)
Fixpoint run (st : state) (us : list (token * nat)) : ParseKanaError + state :=
  match us with
  | [] => inr st
  | (u, pos) :: r =>
      match step silence describe st u pos with
      | inl e => inl e
      | inr st' => run st' r
      end
  end.

(** A state without the offsets it keeps for error reports. *)
Definition shape (st : state)
  : list AccentPhrase * list Mora * option nat * bool * bool :=
  (finished st, cur st, acc st,
   bool_decide (is_Some (pending st)), bool_decide (is_Some (question st))).

(** The accent of the open phrase once [n] of its moras are read, when the
    phrase has its accent on mora [a]. *)
Definition acc_at (a n : nat) : option nat :=
  if bool_decide (1 ≤ a ≤ n) then Some a else None.

(** What the assembler keeps true of its state. *)
Definition parsed_mora (m : Mora) : Prop :=
  table_mora m ∧ bare_mora m = m.

Definition parsed_phrase (p : AccentPhrase) : Prop :=
  Forall parsed_mora (moras p) ∧ valid_accent p ∧
  (pause_mora p = None ∨ pause_mora p = Some (silent_mora silence)).

Definition state_ok (st : state) : Prop :=
  Forall parsed_phrase (finished st) ∧ Forall parsed_mora (cur st) ∧
  (∀ a, acc st = Some a → 1 ≤ a ≤ length (cur st)) ∧
  (pending st = None ∨ question st = None).

End WithTable.

#[global] Instance same_mora_dec m m' : Decision (same_mora m m').
Proof. unfold same_mora. apply _. Defined.
#[global] Instance same_phrase_dec p q : Decision (same_phrase p q).
Proof. unfold same_phrase. apply _. Defined.
#[global] Instance grammar_equal_dec ps qs : Decision (grammar_equal ps qs).
Proof. unfold grammar_equal. apply _. Defined.
#[global] Instance valid_accent_dec p : Decision (valid_accent p).
Proof. unfold valid_accent. apply _. Defined.
#[global] Instance table_mora_dec t m : Decision (table_mora t m).
Proof. unfold table_mora. apply _. Defined.
#[global] Instance canonical_phrase_dec t p : Decision (canonical_phrase t p).
Proof. unfold canonical_phrase. apply _. Defined.

End Canonical.

(** * The HTTP layer of [run.py] *)

Module Http.

(** ** Values exchanged with clients *)

(** [AudioQuery], with the fields [run.py] fills in. *)
Module Model.

Record AudioQuery := mkAudioQuery {
  accent_phrases : list AccentPhrase;
  speedScale : number;
  pitchScale : number;
  intonationScale : number;
  volumeScale : number;
  prePhonemeLength : number;
  postPhonemeLength : number;
  outputSamplingRate : Z;
  outputStereo : bool;
  kana : option (list char)
}.

#[global] Instance AudioQuery_eq_dec : EqDecision AudioQuery.
Proof. solve_decision. Defined.

End Model.
Export Model.

(** [Preset], with the fields [run.py] reads. *)
Module Preset.

Record Preset := mkPreset {
  id : Z;
  style_id : Z;
  speedScale : number;
  pitchScale : number;
  intonationScale : number;
  volumeScale : number;
  prePhonemeLength : number;
  postPhonemeLength : number
}.

End Preset.

Module ParseKanaBadRequest.

(** Modelled from the spec: [ParseKanaBadRequest] of the absent [model]
    module, the failure shape exposed to the calling layer (section 6):
    message, error name and position of the parse error it is built
    from. *)
Record t := mk {
  message : string;
  error_name : ErrorName;
  position : nat
}.

(** Modelled from the spec: [ParseKanaBadRequest(err)]. *)
Definition make (err : ParseKanaError) : t :=
  match err with
  | mkParseKanaError m k pos =>
      {| message := m; error_name := k; position := pos |}
  end.

#[global] Instance eq_dec : EqDecision t.
Proof. solve_decision. Defined.

End ParseKanaBadRequest.

(** The [detail] of an [HTTPException]: a string, or the dictionary of a
    [ParseKanaBadRequest]. *)
Inductive Detail :=
| DetailStr (s : string)
| DetailParseKana (b : ParseKanaBadRequest.t).

(** The Python exceptions the handlers deal with; [Exception] is any other
    exception, with the string [str] gives for it. *)
Inductive exn :=
| HTTPException (status_code : Z) (detail : Detail)
| ParseKanaErr (err : ParseKanaError)
| ConnectBase64WavesException (msg : string)
| KeyError (key : string)
| IndexError
| StopIteration
| Exception (msg : string).

(** What a call gives: a value, or an exception raised. *)
Inductive outcome (A : Type) :=
| Returned (a : A)
| Raised (e : exn).
Arguments Returned {A} a.
Arguments Raised {A} e.

#[global] Instance Detail_eq_dec : EqDecision Detail.
Proof. solve_decision. Defined.
#[global] Instance exn_eq_dec : EqDecision exn.
Proof. solve_decision. Defined.

(** The messages of [run.py]. *)
Definition unknown_version : Detail := DetailStr "不明なバージョンです".
Definition preset_not_found : Detail :=
  DetailStr "該当するプリセットIDが見つかりません".
Definition experimental_disabled : Detail :=
  DetailStr "実験的機能はデフォルトで無効になっています。使用するには引数を指定してください。".
Definition sampling_rate_differs : Detail :=
  DetailStr "サンプリングレートが異なるクエリがあります".
Definition unsupported_feature : Detail := DetailStr "非対応の機能です。".

(** The command-line switches the handlers read. *)
Record Args := mkArgs {
  enable_cancellable_synthesis : bool;
  enable_guided_synthesis : bool
}.

(** ** [functools.lru_cache]

    The cache of [lru_cache(maxsize)], most recently used entry first. *)
Section Lru.
Context {K V : Type} `{EqDecision K}.

Fixpoint cache_find (k : K) (c : list (K * V)) : option V :=
  match c with
  | [] => None
  | (k', v) :: r => if decide (k' = k) then Some v else cache_find k r
  end.

Definition cache_remove (k : K) (c : list (K * V)) : list (K * V) :=
  filter (λ kv, kv.1 ≠ k) c.

(** A hit moves the entry to the front. *)
Definition cache_touch (k : K) (v : V) (c : list (K * V)) : list (K * V) :=
  (k, v) :: cache_remove k c.

(** A miss stores the new entry; when the cache is full the entry used
    least recently, the last one, is dropped. *)
Definition cache_store (maxsize : nat) (k : K) (v : V) (c : list (K * V))
  : list (K * V) :=
  take maxsize ((k, v) :: c).

(** The cache after a successful call with key [k], where [v] is what the
    wrapped function returns for it. *)
Definition cache_use (maxsize : nat) (k : K) (v : V) (c : list (K * V))
  : list (K * V) :=
  match cache_find k c with
  | Some v' => cache_touch k v' c
  | None => cache_store maxsize k v c
  end.

End Lru.

(** ** Collaborators *)

Module Collaborator.
Section Fields.

Context {Engine Wave MorphingParameter Upload : Type}.

(** The collaborators of [run.py]: the methods and attributes of a
    synthesis engine, the kana parser, the morphing module, the preset
    loader, the wave utilities, [soundfile] and [tempfile]. *)
Record Collaborators := mkCollaborators {
  default_sampling_rate : Engine → Z;
  speakers : Engine → string;
  supported_devices : Engine → option string;
  create_accent_phrases : Engine → list char → Z → outcome (list AccentPhrase);
  replace_mora_data : Engine → list AccentPhrase → Z → outcome (list AccentPhrase);
  replace_phoneme_length :
    Engine → list AccentPhrase → Z → outcome (list AccentPhrase);
  replace_mora_pitch :
    Engine → list AccentPhrase → Z → outcome (list AccentPhrase);
  synthesis : Engine → AudioQuery → Z → option bool → outcome Wave;
  guided_accent_phrases :
    Engine → list AccentPhrase → Z → Upload → bool →
    outcome (list AccentPhrase);
  guided_synthesis : Engine → Upload → AudioQuery → Z → bool → outcome Wave;
  parse_kana : list char → outcome (list AccentPhrase);
  create_kana : list AccentPhrase → list char;
  _synthesis_morphing_parameter :
    Engine → AudioQuery → Z → Z → outcome MorphingParameter;
  synthesis_morphing : MorphingParameter → number → bool → outcome Wave;
  fs : MorphingParameter → Z;
  load_presets : outcome (list Preset.Preset * string);
  connect_base64_waves : list string → outcome (Wave * Z);
  soundfile_write : string → Wave → Z → outcome unit;
  temporary_name : nat → string;
  zip_member : nat → string;
  cancellable_synthesis_impl :
    AudioQuery → Z → option string → outcome string;
  (* the part of [speaker_info] after [get_engine]: decoding the speakers
     and reading the files of the speaker *)
  speaker_info_of : Engine → string → outcome string
}.

End Fields.
End Collaborator.

Section App.

(** The engines, waveforms, morphing parameters and uploaded files are
    opaque to the handlers. *)
Context {Engine Wave MorphingParameter Upload : Type}.
Context `{EqDecision Engine}.

#[local] Abbreviation Collaborators :=
  (@Collaborator.Collaborators Engine Wave MorphingParameter Upload).

(** The key [lru_cache] builds from the keyword arguments of
    [synthesis_morphing_parameter]. *)
Definition MorphKey : Type := Engine * AudioQuery * Z * Z.

#[global] Instance MorphKey_eq_dec : EqDecision MorphKey.
Proof. unfold MorphKey. apply _. Defined.

(** The calls the handlers make to their collaborators. *)
Inductive Call :=
| CallCreateAccentPhrases (engine : Engine) (text : list char) (speaker_id : Z)
| CallReplaceMoraData (engine : Engine) (ps : list AccentPhrase) (speaker_id : Z)
| CallReplacePhonemeLength (engine : Engine) (ps : list AccentPhrase) (speaker_id : Z)
| CallReplaceMoraPitch (engine : Engine) (ps : list AccentPhrase) (speaker_id : Z)
| CallSynthesis (engine : Engine) (query : AudioQuery) (speaker_id : Z)
    (upspeak : option bool)
| CallGuidedAccentPhrases (engine : Engine) (ps : list AccentPhrase)
    (speaker : Z) (audio_file : Upload) (normalize : bool)
| CallGuidedSynthesis (engine : Engine) (audio_file : Upload)
    (query : AudioQuery) (speaker : Z) (normalize : bool)
| CallParseKana (text : list char)
| CallLoadPresets
| CallMorphingParameter (key : MorphKey)
| CallSynthesisMorphing (p : MorphingParameter) (morph_rate : number)
    (output_stereo : bool)
| CallConnectBase64Waves (waves : list string)
| CallNamedTemporaryFile (name : string)
| CallTemporaryFile (name : string)
| CallSoundfileWrite (file : string) (data : Wave) (samplerate : Z)
| CallZipWrite (archive : string) (member : string) (file : string)
| CallCancellableSynthesis (query : AudioQuery) (speaker_id : Z)
    (core_version : option string)
| CallSpeakerInfo (engine : Engine) (speaker_uuid : string).

(** What [generate_app] closes over, with the module-level [args]. *)
Record App := mkApp {
  collaborators : Collaborators;
  synthesis_engines : gmap string Engine;
  latest_core_version : string;
  app_default_sampling_rate : Z;
  args : Args
}.

(** The mutable world of a running app: the entries of the [lru_cache]
    around [_synthesis_morphing_parameter], the calls made so far (most
    recent last), and the number of temporary files created. *)
Record World := mkWorld {
  morph_cache : list (MorphKey * MorphingParameter);
  calls : list Call;
  temporaries : nat
}.

Definition initial_world : World :=
  {| morph_cache := []; calls := []; temporaries := 0 |}.

(** [generate_app] reads [synthesis_engines[latest_core_version]] while it
    builds the app; the [lru_cache] it creates starts empty. *)
Definition generate_app (env : Collaborators) (arguments : Args)
    (engines : gmap string Engine) (latest : string) : outcome App :=
  match engines !! latest with
  | Some engine =>
      Returned {| collaborators := env; synthesis_engines := engines;
                  latest_core_version := latest;
                  app_default_sampling_rate :=
                    Collaborator.default_sampling_rate env engine;
                  args := arguments |}
  | None => Raised (KeyError latest)
  end.

(** ** Handlers as computations *)

Definition M (A : Type) : Type := World → outcome A * World.

Definition ret {A} (a : A) : M A := λ w, (Returned a, w).

Definition raise {A} (e : exn) : M A := λ w, (Raised e, w).

Definition bind {A B} (m : M A) (k : A → M B) : M B :=
  λ w, match m w with
       | (Returned a, w') => k a w'
       | (Raised e, w') => (Raised e, w')
       end.

(** The world with further calls in its log. *)
Definition logged (w : World) (cs : list Call) : World :=
  {| morph_cache := morph_cache w; calls := calls w ++ cs;
     temporaries := temporaries w |}.

(** A call to a collaborator is logged, whatever it gives. *)
Definition call {A} (c : Call) (r : outcome A) : M A :=
  λ w, (r, logged w [c]).

(** [try: m except ...]: the handler picks the clause for the exception,
    if there is one. *)
Definition try_except {A} (m : M A) (handler : exn → option (M A)) : M A :=
  λ w, match m w with
       | (Returned a, w') => (Returned a, w')
       | (Raised e, w') =>
           match handler e with
           | Some h => h w'
           | None => (Raised e, w')
           end
       end.

Notation "x <- m ;; k" := (bind m (λ x, k))
  (at level 100, m at next level, right associativity).
Notation "m ;;; k" := (bind m (λ _, k))
  (at level 100, right associativity).

(** [NamedTemporaryFile(delete=False)]: a new file, whose name is kept. *)
Definition named_temporary_file (env : Collaborators) : M string :=
  λ w, let name := Collaborator.temporary_name env (temporaries w) in
       (Returned name,
        {| morph_cache := morph_cache w;
           calls := calls w ++ [CallNamedTemporaryFile name];
           temporaries := S (temporaries w) |}).

Section Handlers.

Context (app : App).

#[local] Abbreviation env := (collaborators app).

(** [get_engine], lines 106-111. *)
Definition get_engine (core_version : option string) : M Engine :=
  match core_version with
  | None =>
      match synthesis_engines app !! latest_core_version app with
      | Some engine => ret engine
      | None => raise (KeyError (latest_core_version app))
      end
  | Some v =>
      match synthesis_engines app !! v with
      | Some engine => ret engine
      | None => raise (HTTPException 422 unknown_version)
      end
  end.

(** The capacity given to [lru_cache], line 94. *)
Definition maxsize : nat := 4.

(** [synthesis_morphing_parameter], line 94: [lru_cache(maxsize=4)] around
    the imported [_synthesis_morphing_parameter].  A hit returns the stored
    value without calling the wrapped function; a miss calls it and stores
    what it returns, and stores nothing when it raises. *)
Definition synthesis_morphing_parameter (engine : Engine) (query : AudioQuery)
    (base_speaker target_speaker : Z) : M MorphingParameter :=
  λ w,
    let key : MorphKey := (engine, query, base_speaker, target_speaker) in
    match cache_find key (morph_cache w) with
    | Some p =>
        (Returned p,
         {| morph_cache := cache_touch key p (morph_cache w);
            calls := calls w; temporaries := temporaries w |})
    | None =>
        match Collaborator._synthesis_morphing_parameter env engine query
                base_speaker target_speaker with
        | Returned p =>
            (Returned p,
             {| morph_cache := cache_store maxsize key p (morph_cache w);
                calls := calls w ++ [CallMorphingParameter key];
                temporaries := temporaries w |})
        | Raised e =>
            (Raised e,
             {| morph_cache := morph_cache w;
                calls := calls w ++ [CallMorphingParameter key];
                temporaries := temporaries w |})
        end
    end.

(** [audio_query], lines 119-136. *)
Definition audio_query (text : list char) (speaker : Z)
    (core_version : option string) : M AudioQuery :=
  engine <- get_engine core_version ;;
  accent_phrases <- call (CallCreateAccentPhrases engine text speaker)
                      (Collaborator.create_accent_phrases env engine text speaker) ;;
  ret {| accent_phrases := accent_phrases;
         speedScale := 1%Q; pitchScale := 0%Q; intonationScale := 1%Q;
         volumeScale := 1%Q;
         prePhonemeLength := (1 # 10)%Q; postPhonemeLength := (1 # 10)%Q;
         outputSamplingRate := app_default_sampling_rate app;
         outputStereo := false;
         kana := Some (Collaborator.create_kana env accent_phrases) |}.

(** [audio_query_from_preset], lines 144-175. *)
Definition audio_query_from_preset (text : list char) (preset_id : Z)
    (core_version : option string) : M AudioQuery :=
  engine <- get_engine core_version ;;
  loaded <- call CallLoadPresets (Collaborator.load_presets env) ;;
  if negb (String.eqb loaded.2 "") then
    raise (HTTPException 422 (DetailStr loaded.2))
  else
    match List.find (λ preset, (Preset.id preset =? preset_id)%Z) loaded.1 with
    | None => raise (HTTPException 422 preset_not_found)
    | Some selected_preset =>
        accent_phrases <-
          call (CallCreateAccentPhrases engine text
                  (Preset.style_id selected_preset))
            (Collaborator.create_accent_phrases env engine text
               (Preset.style_id selected_preset)) ;;
        ret {| accent_phrases := accent_phrases;
               speedScale := Preset.speedScale selected_preset;
               pitchScale := Preset.pitchScale selected_preset;
               intonationScale := Preset.intonationScale selected_preset;
               volumeScale := Preset.volumeScale selected_preset;
               prePhonemeLength := Preset.prePhonemeLength selected_preset;
               postPhonemeLength := Preset.postPhonemeLength selected_preset;
               outputSamplingRate := app_default_sampling_rate app;
               outputStereo := false;
               kana := Some (Collaborator.create_kana env accent_phrases) |}
    end.

(** [parse_kana(text)] under [except ParseKanaError as err: raise
    HTTPException(status_code=400, detail=ParseKanaBadRequest(err).dict())],
    lines 206-212 and 247-253. *)
Definition parse_kana_or_400 (text : list char) : M (list AccentPhrase) :=
  try_except (call (CallParseKana text) (Collaborator.parse_kana env text))
    (λ e, match e with
          | ParseKanaErr err =>
              Some (raise (HTTPException 400
                             (DetailParseKana (ParseKanaBadRequest.make err))))
          | _ => None
          end).

(** [accent_phrases], lines 189-219. *)
Definition accent_phrases (text : list char) (speaker : Z)
    (is_kana : bool) (core_version : option string) : M (list AccentPhrase) :=
  engine <- get_engine core_version ;;
  if is_kana then
    accent_phrases <- parse_kana_or_400 text ;;
    call (CallReplaceMoraData engine accent_phrases speaker)
      (Collaborator.replace_mora_data env engine accent_phrases speaker)
  else
    call (CallCreateAccentPhrases engine text speaker)
      (Collaborator.create_accent_phrases env engine text speaker).

(** [str(e) == "Decode Failed"]: the exceptions built from a message give
    it back as their string; the string of the others is never that
    text. *)
Definition says_decode_failed (e : exn) : bool :=
  match e with
  | Exception msg | ConnectBase64WavesException msg =>
      String.eqb msg "Decode Failed"
  | _ => false
  end.

(** The clauses [except StopIteration] and [except Exception as e] of the
    guided endpoints, which differ in a final full stop. *)
Definition forced_alignment_clauses {A} (stop : string) (e : exn)
  : option (M A) :=
  match e with
  | StopIteration =>
      Some (raise (HTTPException 500
                     (DetailStr ("Failed in Forced Alignment" ++ stop))))
  | _ =>
      if says_decode_failed e then
        Some (raise (HTTPException 500
                       (DetailStr ("Failed in Forced Alignment" ++ stop))))
      else
        Some (raise (HTTPException 500
                       (DetailStr ("Internal Server Error" ++ stop))))
  end.

(** [guided_accent_phrase], lines 227-289. *)
Definition guided_accent_phrase (text : list char) (speaker : Z)
    (is_kana : bool) (audio_file : Upload) (normalize : bool)
    (core_version : option string) : M (list AccentPhrase) :=
  if negb (enable_guided_synthesis (args app)) then
    raise (HTTPException 404 experimental_disabled)
  else
    engine <- get_engine core_version ;;
    accent_phrases <-
      (if is_kana then parse_kana_or_400 text
       else call (CallCreateAccentPhrases engine text speaker)
              (Collaborator.create_accent_phrases env engine text speaker)) ;;
    try_except
      (call (CallGuidedAccentPhrases engine accent_phrases speaker
               audio_file normalize)
         (Collaborator.guided_accent_phrases env engine accent_phrases speaker
            audio_file normalize))
      (λ e, match e with
            | ParseKanaErr err =>
                Some (raise (HTTPException 422
                               (DetailParseKana (ParseKanaBadRequest.make err))))
            | _ => forced_alignment_clauses "" e
            end).

(** [mora_data], [mora_length], [mora_pitch], lines 297-335. *)
Definition mora_data (accent_phrases : list AccentPhrase) (speaker : Z)
    (core_version : option string) : M (list AccentPhrase) :=
  engine <- get_engine core_version ;;
  call (CallReplaceMoraData engine accent_phrases speaker)
    (Collaborator.replace_mora_data env engine accent_phrases speaker).

Definition mora_length (accent_phrases : list AccentPhrase) (speaker : Z)
    (core_version : option string) : M (list AccentPhrase) :=
  engine <- get_engine core_version ;;
  call (CallReplacePhonemeLength engine accent_phrases speaker)
    (Collaborator.replace_phoneme_length env engine accent_phrases speaker).

Definition mora_pitch (accent_phrases : list AccentPhrase) (speaker : Z)
    (core_version : option string) : M (list AccentPhrase) :=
  engine <- get_engine core_version ;;
  call (CallReplaceMoraPitch engine accent_phrases speaker)
    (Collaborator.replace_mora_pitch env engine accent_phrases speaker).

(** What a handler hands back to the framework.  [ReturnedException] is an
    exception object given back as the response value, not raised. *)
Inductive response :=
| QueryResponse (query : AudioQuery)
| PhrasesResponse (ps : list AccentPhrase)
| FileResponse (path : string) (media_type : string)
| Response (content : string) (media_type : string)
| ReturnedException (e : exn).

Definition wav_response (path : string) : response :=
  FileResponse path "audio/wav".

(** [TemporaryFile()], the anonymous file of one loop round. *)
Definition temporary_file : M string :=
  λ w, let name := Collaborator.temporary_name env (temporaries w) in
       (Returned name,
        {| morph_cache := morph_cache w;
           calls := calls w ++ [CallTemporaryFile name];
           temporaries := S (temporaries w) |}).

Definition write_wav (file : string) (data : Wave) (samplerate : Z) : M unit :=
  call (CallSoundfileWrite file data samplerate)
    (Collaborator.soundfile_write env file data samplerate).

(** [synthesis], lines 350-371. *)
Definition synthesis (query : AudioQuery) (speaker : Z)
    (enable_interrogative_upspeak : bool) (core_version : option string)
  : M response :=
  engine <- get_engine core_version ;;
  wave <- call (CallSynthesis engine query speaker
                  (Some enable_interrogative_upspeak))
            (Collaborator.synthesis env engine query speaker
               (Some enable_interrogative_upspeak)) ;;
  f <- named_temporary_file env ;;
  write_wav f wave (outputSamplingRate query) ;;;
  ret (wav_response f).

(** [cancellable_synthesis], lines 386-406; the version is resolved inside
    [cancellable_engine._synthesis_impl], which gives an empty file name
    for an unknown one. *)
Definition cancellable_synthesis (query : AudioQuery) (speaker : Z)
    (core_version : option string) : M response :=
  if negb (enable_cancellable_synthesis (args app)) then
    raise (HTTPException 404 experimental_disabled)
  else
    f_name <- call (CallCancellableSynthesis query speaker core_version)
                (Collaborator.cancellable_synthesis_impl env query speaker core_version) ;;
    if String.eqb f_name "" then raise (HTTPException 422 unknown_version)
    else ret (wav_response f_name).

(** The loop of [multi_synthesis], lines 435-452; [i] is the index of the
    first query of [queries]. *)
Fixpoint multi_synthesis_loop (engine : Engine) (speaker sampling_rate : Z)
    (archive : string) (i : nat) (queries : list AudioQuery) : M unit :=
  match queries with
  | [] => ret tt
  | query :: rest =>
      if negb (outputSamplingRate query =? sampling_rate)%Z then
        raise (HTTPException 422 sampling_rate_differs)
      else
        wav_file <- temporary_file ;;
        wave <- call (CallSynthesis engine query speaker None)
                  (Collaborator.synthesis env engine query speaker None) ;;
        write_wav wav_file wave sampling_rate ;;;
        call (CallZipWrite archive (Collaborator.zip_member env i) wav_file)
          (Returned tt) ;;;
        multi_synthesis_loop engine speaker sampling_rate archive (S i) rest
  end.

(** [multi_synthesis], lines 423-454. *)
Definition multi_synthesis (queries : list AudioQuery) (speaker : Z)
    (core_version : option string) : M response :=
  engine <- get_engine core_version ;;
  match queries with
  | [] => raise IndexError
  | first :: _ =>
      f <- named_temporary_file env ;;
      multi_synthesis_loop engine speaker (outputSamplingRate first) f 0
        queries ;;;
      ret (FileResponse f "application/zip")
  end.

(** [_synthesis_morphing], lines 469-504. *)
Definition _synthesis_morphing (query : AudioQuery)
    (base_speaker target_speaker : Z) (morph_rate : number)
    (core_version : option string) : M response :=
  engine <- get_engine core_version ;;
  morph_param <- synthesis_morphing_parameter engine query
                   base_speaker target_speaker ;;
  morph_wave <- call (CallSynthesisMorphing morph_param morph_rate
                        (outputStereo query))
                  (Collaborator.synthesis_morphing env morph_param morph_rate
                     (outputStereo query)) ;;
  f <- named_temporary_file env ;;
  write_wav f morph_wave (Collaborator.fs env morph_param) ;;;
  ret (wav_response f).

(** [guided_synthesis], lines 518-588. *)
Definition guided_synthesis (kana_text : list char) (speaker_id : Z)
    (normalize : bool) (audio_file : Upload) (stereo : bool)
    (sample_rate : Z) (volume_scale pitch_scale speed_scale : number)
    (core_version : option string) : M response :=
  if negb (enable_guided_synthesis (args app)) then
    raise (HTTPException 404 experimental_disabled)
  else
    engine <- get_engine core_version ;;
    try_except
      (accent_phrases <- call (CallParseKana kana_text)
                           (Collaborator.parse_kana env kana_text) ;;
       let query :=
         {| Model.accent_phrases := accent_phrases;
            speedScale := speed_scale; pitchScale := pitch_scale;
            intonationScale := 1%Q; volumeScale := volume_scale;
            prePhonemeLength := (1 # 10)%Q; postPhonemeLength := (1 # 10)%Q;
            outputSamplingRate := sample_rate; outputStereo := stereo;
            kana := Some kana_text |} in
       wave <- call (CallGuidedSynthesis engine audio_file query speaker_id
                       normalize)
                 (Collaborator.guided_synthesis env engine audio_file query speaker_id
                    normalize) ;;
       f <- named_temporary_file env ;;
       write_wav f wave sample_rate ;;;
       ret (wav_response f))
      (λ e, match e with
            | ParseKanaErr err =>
                Some (raise (HTTPException 400
                               (DetailParseKana (ParseKanaBadRequest.make err))))
            | _ => forced_alignment_clauses "." e
            end).

(** [connect_waves], lines 603-620.  The [except] clause builds the
    [HTTPException] and returns it. *)
Definition connect_waves (waves : list string) : M response :=
  connected <-
    try_except
      (r <- call (CallConnectBase64Waves waves)
              (Collaborator.connect_base64_waves env waves) ;;
       ret (inr r))
      (λ e, match e with
            | ConnectBase64WavesException err =>
                Some (ret (inl (HTTPException 422 (DetailStr err))))
            | _ => None
            end) ;;
  match connected with
  | inl exception => ret (ReturnedException exception)
  | inr (waves_nparray, sampling_rate) =>
      f <- named_temporary_file env ;;
      write_wav f waves_nparray sampling_rate ;;;
      ret (wav_response f)
  end.

(** [speakers], [speaker_info], [supported_devices], lines 649-656,
    659-712 and 860-869. *)
Definition speakers (core_version : option string) : M response :=
  engine <- get_engine core_version ;;
  ret (Response (Collaborator.speakers env engine) "application/json").

Definition speaker_info (speaker_uuid : string)
    (core_version : option string) : M response :=
  engine <- get_engine core_version ;;
  info <- call (CallSpeakerInfo engine speaker_uuid)
            (Collaborator.speaker_info_of env engine speaker_uuid) ;;
  ret (Response info "application/json").

Definition supported_devices (core_version : option string)
  : M response :=
  engine <- get_engine core_version ;;
  match Collaborator.supported_devices env engine with
  | None => raise (HTTPException 422 unsupported_feature)
  | Some devices => ret (Response devices "application/json")
  end.

(** ** Requests *)

(** The requests to the endpoints that take [core_version], and to
    [connect_waves]. *)
Inductive request :=
| AudioQueryRequest (text : list char) (speaker : Z)
    (core_version : option string)
| AudioQueryFromPresetRequest (text : list char) (preset_id : Z)
    (core_version : option string)
| AccentPhrasesRequest (text : list char) (speaker : Z) (is_kana : bool)
    (core_version : option string)
| GuidedAccentPhraseRequest (text : list char) (speaker : Z) (is_kana : bool)
    (audio_file : Upload) (normalize : bool) (core_version : option string)
| MoraDataRequest (ps : list AccentPhrase) (speaker : Z)
    (core_version : option string)
| MoraLengthRequest (ps : list AccentPhrase) (speaker : Z)
    (core_version : option string)
| MoraPitchRequest (ps : list AccentPhrase) (speaker : Z)
    (core_version : option string)
| SynthesisRequest (query : AudioQuery) (speaker : Z)
    (enable_interrogative_upspeak : bool) (core_version : option string)
| CancellableSynthesisRequest (query : AudioQuery) (speaker : Z)
    (core_version : option string)
| MultiSynthesisRequest (queries : list AudioQuery) (speaker : Z)
    (core_version : option string)
| SynthesisMorphingRequest (query : AudioQuery)
    (base_speaker target_speaker : Z) (morph_rate : number)
    (core_version : option string)
| GuidedSynthesisRequest (kana_text : list char) (speaker_id : Z)
    (normalize : bool) (audio_file : Upload) (stereo : bool)
    (sample_rate : Z) (volume_scale pitch_scale speed_scale : number)
    (core_version : option string)
| SpeakersRequest (core_version : option string)
| SpeakerInfoRequest (speaker_uuid : string) (core_version : option string)
| SupportedDevicesRequest (core_version : option string)
| ConnectWavesRequest (waves : list string).

Definition answer {A} (f : A → response) (m : M A) : M response :=
  a <- m ;; ret (f a).

Definition handle (r : request) : M response :=
  match r with
  | AudioQueryRequest text speaker v =>
      answer QueryResponse (audio_query text speaker v)
  | AudioQueryFromPresetRequest text preset_id v =>
      answer QueryResponse (audio_query_from_preset text preset_id v)
  | AccentPhrasesRequest text speaker is_kana v =>
      answer PhrasesResponse (accent_phrases text speaker is_kana v)
  | GuidedAccentPhraseRequest text speaker is_kana audio_file normalize v =>
      answer PhrasesResponse
        (guided_accent_phrase text speaker is_kana audio_file normalize v)
  | MoraDataRequest ps speaker v =>
      answer PhrasesResponse (mora_data ps speaker v)
  | MoraLengthRequest ps speaker v =>
      answer PhrasesResponse (mora_length ps speaker v)
  | MoraPitchRequest ps speaker v =>
      answer PhrasesResponse (mora_pitch ps speaker v)
  | SynthesisRequest query speaker upspeak v =>
      synthesis query speaker upspeak v
  | CancellableSynthesisRequest query speaker v =>
      cancellable_synthesis query speaker v
  | MultiSynthesisRequest queries speaker v =>
      multi_synthesis queries speaker v
  | SynthesisMorphingRequest query base_speaker target_speaker morph_rate v =>
      _synthesis_morphing query base_speaker target_speaker morph_rate v
  | GuidedSynthesisRequest kana_text speaker_id normalize audio_file stereo
      sample_rate volume_scale pitch_scale speed_scale v =>
      guided_synthesis kana_text speaker_id normalize audio_file
        stereo sample_rate volume_scale pitch_scale speed_scale v
  | SpeakersRequest v => speakers v
  | SpeakerInfoRequest speaker_uuid v => speaker_info speaker_uuid v
  | SupportedDevicesRequest v => supported_devices v
  | ConnectWavesRequest waves => connect_waves waves
  end.

(** The [core_version] parameter of a request, for the endpoints that
    have one. *)
Definition core_version_of (r : request) : option (option string) :=
  match r with
  | AudioQueryRequest _ _ v | AudioQueryFromPresetRequest _ _ v
  | AccentPhrasesRequest _ _ _ v | GuidedAccentPhraseRequest _ _ _ _ _ v
  | MoraDataRequest _ _ v | MoraLengthRequest _ _ v | MoraPitchRequest _ _ v
  | SynthesisRequest _ _ _ v | CancellableSynthesisRequest _ _ v
  | MultiSynthesisRequest _ _ v | SynthesisMorphingRequest _ _ _ _ v
  | GuidedSynthesisRequest _ _ _ _ _ _ _ _ _ v
  | SpeakersRequest v | SpeakerInfoRequest _ v
  | SupportedDevicesRequest v => Some v
  | ConnectWavesRequest _ => None
  end.

(** The endpoints behind a command-line switch. *)
Inductive guard := Unguarded | GuidedGuard | CancellableGuard.

Definition guard_of (r : request) : guard :=
  match r with
  | GuidedAccentPhraseRequest _ _ _ _ _ _
  | GuidedSynthesisRequest _ _ _ _ _ _ _ _ _ _ => GuidedGuard
  | CancellableSynthesisRequest _ _ _ => CancellableGuard
  | _ => Unguarded
  end.

(** The engine a [core_version] parameter names, if any. *)
Definition engine_for (core_version : option string) : option Engine :=
  match core_version with
  | None => synthesis_engines app !! latest_core_version app
  | Some v => synthesis_engines app !! v
  end.

(** The cache holds at most [maxsize] entries. *)
Definition bounded (w : World) : Prop := length (morph_cache w) ≤ maxsize.

(** A computation that keeps the cache within its capacity. *)
Definition keeps {A} (m : M A) : Prop := ∀ w, bounded w → bounded (m w).2.

(** The world after a sequence of requests. *)
Definition serve (rs : list request) (w : World) : World :=
  foldl (λ w r, (handle r w).2) w rs.

End Handlers.

End App.

End Http.

(** * The remaining endpoints of [run.py] *)

Module Endpoints.
Import Http.

(** ** Reading the log of calls *)

Section Log.

Context {Engine Wave MorphingParameter Upload : Type}.

#[local] Abbreviation Call := (@Call Engine Wave MorphingParameter Upload).

(** The arguments of a call to [engine.synthesis]. *)
Definition synthesized (c : Call)
  : option (Engine * AudioQuery * Z * option bool) :=
  match c with
  | CallSynthesis engine query speaker upspeak =>
      Some (engine, query, speaker, upspeak)
  | _ => None
  end.

(** The engine that a call reaches, for the calls to an engine. *)
Definition engine_of (c : Call) : option Engine :=
  match c with
  | CallCreateAccentPhrases engine _ _
  | CallReplaceMoraData engine _ _
  | CallReplacePhonemeLength engine _ _
  | CallReplaceMoraPitch engine _ _
  | CallSynthesis engine _ _ _
  | CallGuidedAccentPhrases engine _ _ _ _
  | CallGuidedSynthesis engine _ _ _ _
  | CallMorphingParameter (engine, _, _, _)
  | CallSpeakerInfo engine _ => Some engine
  | _ => None
  end.

(** The member name of a call to [zip_file.writestr]. *)
Definition zipped (c : Call) : option string :=
  match c with
  | CallZipWrite _ member _ => Some member
  | _ => None
  end.

(** The calls to the function wrapped by [lru_cache]. *)
Definition computes_parameter (c : Call) : bool :=
  match c with
  | CallMorphingParameter _ => true
  | _ => false
  end.

End Log.

(** ** [get_presets] *)

Section Presets.

Context {Engine Wave MorphingParameter Upload : Type}.
Context `{EqDecision Engine}.
Context (app : @App Engine Wave MorphingParameter Upload).

(** [get_presets], lines 623-635. *)
Definition get_presets
  : @M Engine Wave MorphingParameter Upload (list Preset.Preset) :=
  bind (call CallLoadPresets (Collaborator.load_presets (collaborators app)))
    (λ loaded,
       if negb (String.eqb loaded.2 "") then
         raise (HTTPException 422 (DetailStr loaded.2))
       else ret loaded.1).

(** A computation that leaves the entries of the cache as they are. *)
Definition spares {A} (m : @M Engine Wave MorphingParameter Upload A)
  : Prop :=
  ∀ w : @World Engine Wave MorphingParameter Upload,
    morph_cache (m w).2 = morph_cache w.

(** A computation whose calls to an engine all reach [engine]. *)
Definition confined (engine : Engine) {A}
    (m : @M Engine Wave MorphingParameter Upload A) : Prop :=
  ∀ w : @World Engine Wave MorphingParameter Upload,
    ∃ cs, calls (m w).2 = calls w ++ cs ∧
          Forall (λ c, ∀ engine', engine_of c = Some engine' →
                                  engine' = engine) cs.

End Presets.

Section Requests.

Context {Engine Wave MorphingParameter Upload : Type}.

(** The requests to [_synthesis_morphing], the only handler that uses
    [synthesis_morphing_parameter]. *)
Definition morphs (r : @request Upload) : bool :=
  match r with
  | SynthesisMorphingRequest _ _ _ _ _ => true
  | _ => false
  end.

End Requests.

(** ** The user dictionary endpoints *)

(** What a call into [voicevox_engine.user_dict] raises: pydantic's
    [ValidationError], with the string [str] gives for it, or one of the
    other exceptions.  The handlers also print the traceback, which is
    left out. *)
Inductive failure :=
| ValidationError (str : string)
| Raises (e : exn).




Section UserDict.

(** [UserDictWord] and [WordTypes] are opaque to the handlers. *)
Context {UserDictWord WordTypes : Type}.

(** The functions imported from [voicevox_engine.user_dict], lines 47-54. *)
Record UserDict := mkUserDict {
  read_dict : failure + gmap string UserDictWord;
  apply_word :
    string → string → Z → option WordTypes → option Z → failure + string;
  rewrite_word :
    string → string → Z → string → option WordTypes → option Z →
    failure + unit;
  delete_word : string → failure + unit;
  import_user_dict : gmap string UserDictWord → bool → failure + unit
}.


Context (user_dict : UserDict).










End UserDict.

End Endpoints.

(** * A small instance

    A lookup table with a dozen single katakana and one palatalized token,
    and an app with one engine; the examples of the facts below are stated
    on it. *)

Module Sample.
Import KanaParser Canonical.

Definition KA : char := 12459%N.        (* U+30AB *)
Definition KI : char := 12461%N.        (* U+30AD *)
Definition KU : char := 12463%N.        (* U+30AF *)
Definition KO : char := 12467%N.        (* U+30B3 *)
Definition SHI : char := 12471%N.       (* U+30B7 *)
Definition SU : char := 12473%N.        (* U+30B9 *)
Definition CHI : char := 12481%N.       (* U+30C1 *)
Definition NI : char := 12491%N.        (* U+30CB *)
Definition HA : char := 12495%N.        (* U+30CF *)
Definition SMALL_YA : char := 12515%N.  (* U+30E3 *)
Definition WA : char := 12527%N.        (* U+30EF *)
Definition N' : char := 12531%N.        (* U+30F3 *)

Definition table : gmap (list char) (option phoneme * phoneme) :=
  {[ [KA] := (Some "k", "a");
     [KI] := (Some "k", "i");
     [KU] := (Some "k", "u");
     [KO] := (Some "k", "o");
     [SHI] := (Some "sh", "i");
     [SU] := (Some "s", "u");
     [CHI] := (Some "ch", "i");
     [NI] := (Some "n", "i");
     [HA] := (Some "h", "a");
     [WA] := (Some "w", "a");
     [N'] := (None, "N");
     [SMALL_YA] := (Some "y", "a");
     [KI; SMALL_YA] := (Some "ky", "a") ]}.

Definition silence : phoneme := "pau".

Definition describe (k : ErrorName) : string :=
  match k with
  | UnknownCharacter => "unknown character"
  | MissingAccentMark => "accent mark missing"
  | MultipleAccentMarks => "more than one accent mark"
  | EmptyPhrase => "empty phrase"
  | DevoicingOnInvalidMora => "devoicing mark not before a mora"
  | InterrogativeMarkMisplaced => "interrogative mark not at the end"
  end.

Definition parse (s : list char) : ParseKanaError + list AccentPhrase :=
  parse_kana table silence describe s.

Definition ka : Mora := build_mora [KA] (Some "k", "a") false.
Definition ku : Mora := build_mora [KU] (Some "k", "u") false.

Definition ki : Mora := build_mora [KI] (Some "k", "i") false.
Definition small_ya : Mora := build_mora [SMALL_YA] (Some "y", "a") false.

(** One phrase, which carries a pause mora. *)
Definition paused : list AccentPhrase :=
  [{| moras := [ka]; accent := 1;
      pause_mora := Some (silent_mora silence);
      is_interrogative := false |}].

(** One phrase whose mora is spelled with a Latin letter. *)
Definition foreign : list AccentPhrase :=
  [{| moras := [build_mora [120%N] (Some "k", "a") false]; accent := 1;
      pause_mora := None; is_interrogative := false |}].

(** One phrase whose mora is spelled KA but carries the vowel [o]. *)
Definition mismatched : list AccentPhrase :=
  [{| moras := [build_mora [KA] (Some "k", "o") false]; accent := 1;
      pause_mora := None; is_interrogative := false |}].

(** One phrase of two moras, KI and small YA, which longest match reads
    as the one palatalized token. *)
Definition split_palatal : list AccentPhrase :=
  [{| moras := [ki; small_ya]; accent := 2;
      pause_mora := None; is_interrogative := false |}].

(** Two phrases with durations and pitches filled in by a later stage. *)
Definition voiced (m : Mora) : Mora :=
  {| text := text m; consonant := consonant m;
     consonant_length := Some (1 # 20)%Q; vowel := vowel m;
     unvoiced := unvoiced m; vowel_length := Some (1 # 10)%Q;
     pitch := Some (11 # 2)%Q |}.

Definition filled : list AccentPhrase :=
  [{| moras := [voiced ka; voiced ku]; accent := 1;
      pause_mora := Some (voiced (silent_mora silence));
      is_interrogative := false |};
   {| moras := [voiced (build_mora [KI; SMALL_YA; LONG_VOWEL_MARK]
                          (Some "ky", "a") true)];
      accent := 1; pause_mora := None; is_interrogative := true |}].

(** A notation with a palatalized token, a long vowel written after the
    accent mark, both delimiters, a devoiced mora and a question. *)
Definition notation : list char :=
  [KI; SMALL_YA; ACCENT_MARK; LONG_VOWEL_MARK; KA; PAUSE_DELIMITER;
   KA; KI; ACCENT_MARK; PLAIN_DELIMITER;
   DEVOICE_MARK; KU; ACCENT_MARK; INTERROGATIVE_MARK].

(** What [notation] stands for. *)
Definition parsed : list AccentPhrase :=
  [{| moras := [build_mora [KI; SMALL_YA; LONG_VOWEL_MARK] (Some "ky", "a")
                  false; ka];
      accent := 1; pause_mora := Some (silent_mora silence);
      is_interrogative := false |};
   {| moras := [ka; ki]; accent := 2; pause_mora := None;
      is_interrogative := false |};
   {| moras := [build_mora [KU] (Some "k", "u") true]; accent := 1;
      pause_mora := None; is_interrogative := true |}].

Definition duplicate_accent : list char :=
  [KA; ACCENT_MARK; KI; ACCENT_MARK; KU].

(** The notations of section 8 of the spec. *)
Definition no_accent : list char := [KA; KI; KU].
Definition question_at_end : list char :=
  [KO; N'; NI; CHI; WA; ACCENT_MARK; INTERROGATIVE_MARK].
Definition question_inside : list char :=
  [KO; INTERROGATIVE_MARK; N'; NI; CHI; WA; ACCENT_MARK].
Definition devoiced_first : list char := [DEVOICE_MARK; SU; ACCENT_MARK; KU].
Definition two_phrases : list char :=
  [HA; ACCENT_MARK; SHI; PAUSE_DELIMITER; HA; SHI; ACCENT_MARK].

(** An app with one engine, version 0.14.0, and both experimental
    features switched off, as by default. *)
Import Http.

Definition Engine : Type := nat.
Definition Wave : Type := list Z.
Definition MorphingParameter : Type := Z.
Definition Upload : Type := unit.

Definition preset : Preset.Preset :=
  {| Preset.id := 1; Preset.style_id := 3;
     Preset.speedScale := 1%Q; Preset.pitchScale := 0%Q;
     Preset.intonationScale := 1%Q; Preset.volumeScale := 1%Q;
     Preset.prePhonemeLength := (1 # 10)%Q;
     Preset.postPhonemeLength := (1 # 10)%Q |}.

Definition env : @Collaborator.Collaborators Engine Wave MorphingParameter Upload :=
  {| Collaborator.default_sampling_rate := λ _, 24000%Z;
     Collaborator.speakers := λ _, "[]";
     Collaborator.supported_devices := λ _, None;
     Collaborator.create_accent_phrases := λ _ _ _, Returned paused;
     Collaborator.replace_mora_data := λ _ ps _, Returned ps;
     Collaborator.replace_phoneme_length := λ _ ps _, Returned ps;
     Collaborator.replace_mora_pitch := λ _ ps _, Returned ps;
     Collaborator.synthesis := λ _ _ _ _, Returned [];
     Collaborator.guided_accent_phrases := λ _ ps _ _ _, Returned ps;
     Collaborator.guided_synthesis := λ _ _ _ _ _, Returned [];
     Collaborator.parse_kana := λ s, match parse s with
                        | inr ps => Returned ps
                        | inl err => Raised (ParseKanaErr err)
                        end;
     Collaborator.create_kana := KanaParser.create_kana;
     Collaborator._synthesis_morphing_parameter := λ _ _ base target, Returned (base + target)%Z;
     Collaborator.synthesis_morphing := λ _ _ _, Returned [];
     Collaborator.fs := λ _, 24000%Z;
     Collaborator.load_presets := Returned ([preset], "");
     Collaborator.connect_base64_waves := λ waves,
       match waves with
       | [] => Raised (ConnectBase64WavesException "no wave to connect")
       | _ => Returned ([], 24000%Z)
       end;
     Collaborator.soundfile_write := λ _ _ _, Returned tt;
     Collaborator.temporary_name := λ _, "/tmp/out";
     Collaborator.zip_member := λ _, "001.wav";
     Collaborator.cancellable_synthesis_impl := λ _ _ _, Returned "";
     Collaborator.speaker_info_of := λ _ _, Returned "{}" |}.

Definition app : @App Engine Wave MorphingParameter Upload :=
  {| collaborators := env;
     synthesis_engines := {[ "0.14.0" := 0 ]};
     latest_core_version := "0.14.0";
     app_default_sampling_rate := 24000;
     args := {| enable_cancellable_synthesis := false;
                enable_guided_synthesis := false |} |}.

Definition world : @World Engine Wave MorphingParameter Upload := initial_world.

(** The query the sample app builds for any text. *)
Definition query : AudioQuery :=
  {| Model.accent_phrases := paused;
     speedScale := 1%Q; pitchScale := 0%Q; intonationScale := 1%Q;
     volumeScale := 1%Q;
     prePhonemeLength := (1 # 10)%Q; postPhonemeLength := (1 # 10)%Q;
     outputSamplingRate := 24000; outputStereo := false;
     kana := Some [KA; ACCENT_MARK] |}.

End Sample.

(** Further instances: the sample app with guided synthesis switched on,
    and a user dictionary. *)
Module Scenario.
Import Http Endpoints.


(** A second preset with the identifier of [Sample.preset]. *)
Definition shadowed : Preset.Preset :=
  {| Preset.id := 1; Preset.style_id := 8;
     Preset.speedScale := 2%Q; Preset.pitchScale := 0%Q;
     Preset.intonationScale := 1%Q; Preset.volumeScale := 1%Q;
     Preset.prePhonemeLength := (1 # 10)%Q;
     Preset.postPhonemeLength := (1 # 10)%Q |}.

(** The sample query at another sampling rate. *)
Definition resampled : AudioQuery :=
  {| Model.accent_phrases := Sample.paused;
     speedScale := 1%Q; pitchScale := 0%Q; intonationScale := 1%Q;
     volumeScale := 1%Q;
     prePhonemeLength := (1 # 10)%Q; postPhonemeLength := (1 # 10)%Q;
     outputSamplingRate := 48000; outputStereo := false;
     kana := Some [Sample.KA; KanaParser.ACCENT_MARK] |}.

(** Collaborators whose presets do not load cleanly and whose morphing
    parameter cannot be computed; the others are those of [Sample.env]. *)
Definition faulty
  : @Collaborator.Collaborators Sample.Engine Sample.Wave
      Sample.MorphingParameter Sample.Upload :=
  {| Collaborator.default_sampling_rate :=
       Collaborator.default_sampling_rate Sample.env;
     Collaborator.speakers := Collaborator.speakers Sample.env;
     Collaborator.supported_devices :=
       Collaborator.supported_devices Sample.env;
     Collaborator.create_accent_phrases :=
       Collaborator.create_accent_phrases Sample.env;
     Collaborator.replace_mora_data :=
       Collaborator.replace_mora_data Sample.env;
     Collaborator.replace_phoneme_length :=
       Collaborator.replace_phoneme_length Sample.env;
     Collaborator.replace_mora_pitch :=
       Collaborator.replace_mora_pitch Sample.env;
     Collaborator.synthesis := Collaborator.synthesis Sample.env;
     Collaborator.guided_accent_phrases :=
       Collaborator.guided_accent_phrases Sample.env;
     Collaborator.guided_synthesis :=
       Collaborator.guided_synthesis Sample.env;
     Collaborator.parse_kana := Collaborator.parse_kana Sample.env;
     Collaborator.create_kana := Collaborator.create_kana Sample.env;
     Collaborator._synthesis_morphing_parameter :=
       λ _ _ _ _, Raised (Exception "no such speaker");
     Collaborator.synthesis_morphing :=
       Collaborator.synthesis_morphing Sample.env;
     Collaborator.fs := Collaborator.fs Sample.env;
     Collaborator.load_presets :=
       Returned ([Sample.preset], "presets.yaml does not parse");
     Collaborator.connect_base64_waves :=
       Collaborator.connect_base64_waves Sample.env;
     Collaborator.soundfile_write :=
       Collaborator.soundfile_write Sample.env;
     Collaborator.temporary_name := Collaborator.temporary_name Sample.env;
     Collaborator.zip_member := Collaborator.zip_member Sample.env;
     Collaborator.cancellable_synthesis_impl :=
       Collaborator.cancellable_synthesis_impl Sample.env;
     Collaborator.speaker_info_of :=
       Collaborator.speaker_info_of Sample.env |}.

Definition faulty_app
  : @App Sample.Engine Sample.Wave Sample.MorphingParameter Sample.Upload :=
  {| collaborators := faulty;
     synthesis_engines := {[ "0.14.0" := 0 ]};
     latest_core_version := "0.14.0";
     app_default_sampling_rate := 24000;
     args := {| enable_cancellable_synthesis := false;
                enable_guided_synthesis := false |} |}.

End Scenario.

(** * Facts about the notation *)

Module KanaFacts.
Import KanaParser Canonical.

Lemma classify_not_kana c u : classify c = Some u → is_kana_token u = false.
Proof.
  unfold classify. repeat case_match; intros ?; by simplify_eq.
Qed.

Lemma classify_spell c u : classify c = Some u → spell u = [c].
Proof.
  unfold classify.
  repeat (lazymatch goal with
          | |- context [(c =? ?x)%N] =>
              destruct (N.eqb_spec c x) as [->|_]; [by intros [= <-]|]
          end).
  done.
Qed.

Lemma classify_Unknown c : classify c ≠ Some Unknown.
Proof. unfold classify. repeat case_match; done. Qed.

Lemma kana_run_prefix s : kana_run s `prefix_of` s.
Proof.
  induction s as [|c s IH]; simpl; [done|].
  destruct (is_marker c); [apply prefix_nil | by apply prefix_cons].
Qed.

Lemma kana_run_free s : Forall (λ c, is_marker c = false) (kana_run s).
Proof.
  induction s as [|c s IH]; simpl; [constructor|].
  destruct (is_marker c) eqn:E; by constructor.
Qed.

Lemma kana_run_app k r :
  Forall (λ c, is_marker c = false) k → kana_run (k ++ r) = k ++ kana_run r.
Proof.
  induction 1 as [|c k Hc _ IH]; simpl; [done|]. by rewrite Hc, IH.
Qed.

Lemma kana_run_id k :
  Forall (λ c, is_marker c = false) k → kana_run k = k.
Proof.
  intros H. rewrite <- (app_nil_r k) at 1.
  rewrite kana_run_app by done. simpl. by rewrite app_nil_r.
Qed.

Lemma kana_run_snoc_marker t c :
  is_marker c = true → kana_run (t ++ [c]) = kana_run t.
Proof.
  intros Hc. induction t as [|d t IH]; simpl; [by rewrite Hc|].
  destruct (is_marker d); [done | by rewrite IH].
Qed.

Section Tokenizer.

Context (table : gmap (list char) (option phoneme * phoneme)).


Lemma match_upto_Some n s kana ph :
  match_upto table n s = Some (kana, ph) → n ≤ length s →
  ∃ j, 1 ≤ j ≤ n ∧ kana = take j s ∧ table !! kana = Some ph ∧
       ∀ m, j < m ≤ n → table !! take m s = None.
Proof.
  induction n as [|n IH]; simpl; [done|].
  destruct (table !! take (S n) s) as [e|] eqn:E.
  - intros [= <- <-] Hn. exists (S n). repeat split; try lia; try done.
  - intros H Hn. destruct (IH H) as (j & Hj & -> & Ht & Hm); [lia|].
    exists j. repeat split; try lia; try done.
    intros m Hm'. destruct (decide (m = S n)) as [->|]; [done|].
    apply Hm. lia.
Qed.

Lemma match_upto_found n s j ph :
  1 ≤ j ≤ n → table !! take j s = Some ph →
  (∀ m, j < m ≤ n → table !! take m s = None) →
  match_upto table n s = Some (take j s, ph).
Proof.
  induction n as [|n IH]; intros Hj Ht Hm; [lia|].
  cbn [match_upto].
  destruct (decide (j = S n)) as [->|Hne].
  - by rewrite Ht.
  - rewrite (Hm (S n)) by lia. apply IH; [lia|done|].
    intros m ?. apply Hm. lia.
Qed.

Lemma longest_match_Some s kana ph :
  longest_match table s = Some (kana, ph) →
  kana ≠ [] ∧ kana `prefix_of` s ∧ table !! kana = Some ph.
Proof.
  intros H. apply match_upto_Some in H as (j & Hj & -> & Ht & _); [|done].
  repeat split; [|apply prefix_take|done].
  intros E. apply (f_equal length) in E. rewrite length_take in E.
  simpl in E. lia.
Qed.

(** Longest match only depends on the input as far as the match and the
    longer candidates reach. *)
Lemma longest_match_shorter t u kana ph :
  longest_match table t = Some (kana, ph) →
  kana `prefix_of` u → u `prefix_of` t →
  longest_match table u = Some (kana, ph).
Proof.
  intros H [v ->] [w ->].
  apply match_upto_Some in H as (j & Hj & Hk & Ht & Hm); [|done].
  assert (Hlen : j = length kana).
  { apply (f_equal length) in Hk. rewrite length_take, !length_app in *. lia. }
  subst j.
  assert (Hk' : kana = take (length kana) (kana ++ v)).
  { by rewrite take_app_length. }
  unfold longest_match.
  replace (Some (kana, ph)) with (Some (take (length kana) (kana ++ v), ph))
    by (by rewrite <- Hk').
  apply match_upto_found.
  - rewrite length_app. lia.
  - by rewrite <- Hk'.
  - intros m Hm'. rewrite <- (Hm m).
    + rewrite (take_app_le (kana ++ v)); [done|lia].
    + rewrite !length_app in *. lia.
Qed.

Lemma scan_drop n pos s : scan table n pos s = scan table 0 (pos + n) (drop n s).
Proof.
  revert pos s. induction n as [|n IH]; intros pos s.
  - by rewrite Nat.add_0_r.
  - destruct s as [|c s]; [done|]. simpl. rewrite IH. f_equal. lia.
Qed.

(** What a successful table lookup during the scan tells. *)
Lemma scan_kana_step c r kana ph :
  classify c = None →
  longest_match table (kana_run (c :: r)) = Some (kana, ph) →
  ∃ rest, c :: r = kana ++ rest ∧
    kana_run (c :: r) = kana ++ kana_run rest ∧
    good_token table (KanaMora kana ph) ∧
    ∀ pos, scan table (length kana - 1) (S pos) r =
           scan table 0 (pos + length kana) rest.
Proof.
  intros Hc H.
  destruct (longest_match_Some _ _ _ H) as (Hne & [v Hv] & Ht).
  destruct (kana_run_prefix (c :: r)) as [w Hw].
  assert (Hfree : Forall (λ c, is_marker c = false) kana).
  { pose proof (kana_run_free (c :: r)) as Hf. rewrite Hv in Hf.
    by apply Forall_app in Hf as [? _]. }
  exists (v ++ w). rewrite Hv in Hw. rewrite <- (assoc_L (++)) in Hw.
  split; [done|]. split; [|split; [done|]].
  - rewrite Hw at 1. by apply kana_run_app.
  - intros pos. rewrite scan_drop. destruct kana as [|d kana]; [done|].
    simpl in Hw. injection Hw as <- ->. simpl.
    rewrite Nat.sub_0_r, drop_app_length. f_equal. lia.
Qed.

Lemma scan_lead pos s :
  lead (scan table 0 pos s).*1 `prefix_of` kana_run s.
Proof.
  remember (length s) as n eqn:Hn. revert pos s Hn.
  induction n as [n IH] using lt_wf_ind. intros pos [|c r] Hn; [done|].
  cbn [scan]. destruct (classify c) as [u|] eqn:Hc.
  - apply classify_not_kana in Hc. destruct u; try done; apply prefix_nil.
  - destruct (longest_match table (kana_run (c :: r))) as [[kana ph]|] eqn:E;
      [|apply prefix_nil].
    destruct (scan_kana_step _ _ _ _ Hc E) as (rest & Hs & Hrun & Hg & Hscan).
    rewrite Hscan, Hrun. cbn. apply prefix_app.
    apply (IH (length rest)); [|done].
    subst n. rewrite Hs, length_app. destruct Hg as (Hne & _).
    destruct kana; [done|simpl; lia].
Qed.

(** The tokenizer cuts katakana by longest match. *)
Lemma scan_segmented pos s :
  segmented table (scan table 0 pos s).*1 = true.
Proof.
  remember (length s) as n eqn:Hn. revert pos s Hn.
  induction n as [n IH] using lt_wf_ind. intros pos [|c r] Hn; [done|].
  cbn [scan]. destruct (classify c) as [u|] eqn:Hc.
  - pose proof (classify_not_kana _ _ Hc) as Hk.
    cbn. rewrite (IH (length r)); [|subst n; simpl; lia|done].
    by destruct u.
  - destruct (longest_match table (kana_run (c :: r))) as [[kana ph]|] eqn:E;
      [|done].
    destruct (scan_kana_step _ _ _ _ Hc E) as (rest & Hs & Hrun & Hg & Hscan).
    rewrite Hscan. cbn [fmap list_fmap fst segmented].
    apply andb_true_intro. split.
    + apply bool_decide_eq_true. eapply longest_match_shorter; [done| |].
      * by eexists.
      * rewrite Hrun. cbn. apply prefix_app, scan_lead.
    + apply (IH (length rest)); [|done].
      subst n. rewrite Hs, length_app. destruct Hg as (Hne & _).
      destruct kana; [done|simpl; lia].
Qed.

Lemma scan_good pos s : Forall (scanned_token table) (scan table 0 pos s).*1.
Proof.
  remember (length s) as n eqn:Hn. revert pos s Hn.
  induction n as [n IH] using lt_wf_ind. intros pos [|c r] Hn; [constructor|].
  cbn [scan]. destruct (classify c) as [u|] eqn:Hc.
  - cbn. constructor; [|apply (IH (length r)); [subst n; simpl; lia|done]].
    right. pose proof (classify_not_kana _ _ Hc). pose proof (classify_Unknown c).
    destruct u; done.
  - destruct (longest_match table (kana_run (c :: r))) as [[kana ph]|] eqn:E.
    + destruct (scan_kana_step _ _ _ _ Hc E) as (rest & Hs & Hrun & Hg & Hscan).
      rewrite Hscan. cbn. constructor; [by right|].
      apply (IH (length rest)); [|done].
      subst n. rewrite Hs, length_app. destruct Hg as (Hne & _).
      destruct kana; [done|simpl; lia].
    + cbn. constructor; [by left|constructor].
Qed.

Lemma marker_token_spell u :
  good_token table u → is_kana_token u = false →
  ∃ c, spell u = [c] ∧ classify c = Some u.
Proof. destruct u; try done; intros _ _; by eexists. Qed.

Lemma classify_marker c u : classify c = Some u → is_marker c = true.
Proof. unfold is_marker. by intros ->. Qed.

Lemma kana_run_spell us :
  Forall (good_token table) us → kana_run (us ≫= spell) = lead us.
Proof.
  induction 1 as [|u us Hu _ IH]; [done|]. cbn.
  destruct (is_kana_token u) eqn:Hk.
  - destruct u; try done. destruct Hu as (_ & Hfree & _). cbn.
    by rewrite kana_run_app, IH.
  - destruct (marker_token_spell _ Hu Hk) as (c & -> & Hc).
    cbn. rewrite (classify_marker _ _ Hc). by destruct u.
Qed.

(** Scanning the written form of segmented units gives the units back. *)
Lemma scan_spell us pos :
  Forall (good_token table) us → segmented table us = true →
  (scan table 0 pos (us ≫= spell)).*1 = us.
Proof.
  intros Hg. revert pos. induction Hg as [|u us Hu Hus IH]; intros pos Hseg;
    [done|].
  cbn [segmented] in Hseg. apply andb_prop in Hseg as [Hu' Hseg]. cbn.
  destruct (is_kana_token u) eqn:Hk.
  - destruct u as [| | | | | |kana ph|]; try done.
    apply bool_decide_eq_true in Hu'.
    destruct Hu as (Hne & Hfree & Ht). cbn [spell].
    destruct kana as [|c kana]; [done|].
    change (lead (KanaMora (c :: kana) ph :: us))
      with ((c :: kana) ++ lead us) in Hu'.
    assert (Hc : classify c = None).
    { apply Forall_cons in Hfree as [Hc _]. unfold is_marker in Hc.
      by destruct (classify c). }
    cbn [app scan]. rewrite Hc.
    change (c :: kana ++ us ≫= spell) with ((c :: kana) ++ us ≫= spell).
    rewrite kana_run_app, kana_run_spell by done. rewrite Hu'.
    cbn [fmap list_fmap fst]. f_equal.
    rewrite scan_drop. simpl. rewrite Nat.sub_0_r, drop_app_length.
    by apply IH.
  - destruct (marker_token_spell _ Hu Hk) as (c & -> & Hc).
    cbn [app scan]. rewrite Hc. cbn. f_equal. by apply IH.
Qed.

End Tokenizer.

Section Assembler.

Context (table : gmap (list char) (option phoneme * phoneme)).
Context (silence : phoneme).
Context (describe : ErrorName → string).

Lemma assemble_run st len us :
  assemble silence describe st len us =
  match run silence describe st us with
  | inl e => inl e
  | inr st' => finish silence describe st' len
  end.
Proof.
  revert st. induction us as [|[u pos] us IH]; intros st; [done|].
  simpl. destruct (step silence describe st u pos); [done|apply IH].
Qed.

Lemma run_app st us vs :
  run silence describe st (us ++ vs) =
  match run silence describe st us with
  | inl e => inl e
  | inr st' => run silence describe st' vs
  end.
Proof.
  revert st. induction us as [|[u pos] us IH]; intros st; [done|].
  simpl. destruct (step silence describe st u pos); [done|apply IH].
Qed.

Lemma assemble_app st len us vs :
  assemble silence describe st len (us ++ vs) =
  match run silence describe st us with
  | inl e => inl e
  | inr st' => assemble silence describe st' len vs
  end.
Proof.
  rewrite assemble_run, run_app.
  destruct (run silence describe st us); [done|]. by rewrite assemble_run.
Qed.

(** *** Offsets only matter for error reports *)

Lemma close_shape st1 st2 b p1 p2 :
  shape st1 = shape st2 →
  agree (λ a b, shape a = shape b)
    (close silence describe st1 b p1) (close silence describe st2 b p2).
Proof.
  destruct st1 as [f1 c1 a1 s1 d1 q1], st2 as [f2 c2 a2 s2 d2 q2].
  unfold shape, close. simpl. intros [= -> -> -> Hd Hq].
  destruct c2; [done|]. destruct a2; [|done]. simpl.
  unfold shape. simpl. by rewrite Hq.
Qed.

Lemma step_shape st1 st2 u p1 p2 :
  shape st1 = shape st2 →
  agree (λ a b, shape a = shape b)
    (step silence describe st1 u p1) (step silence describe st2 u p2).
Proof.
  intros H. pose proof (close_shape st1 st2 false p1 p2 H) as Hc1.
  pose proof (close_shape st1 st2 true p1 p2 H) as Hc2.
  destruct st1 as [f1 c1 a1 s1 d1 q1], st2 as [f2 c2 a2 s2 d2 q2].
  unfold shape in H. simpl in H. injection H as -> -> -> Hd Hq.
  unfold step. simpl.
  destruct q1 as [q1|], q2 as [q2|]; try done;
  destruct d1 as [d1|], d2 as [d2|]; try done;
  destruct u; try done; destruct c2, a2; done.
Qed.

Lemma finish_shape st1 st2 l1 l2 :
  shape st1 = shape st2 →
  agree eq (finish silence describe st1 l1) (finish silence describe st2 l2).
Proof.
  intros H. pose proof (close_shape st1 st2 false l1 l2 H) as Hc.
  unfold finish.
  assert (Hd : bool_decide (is_Some (pending st1)) =
               bool_decide (is_Some (pending st2))).
  { unfold shape in H. by simplify_eq. }
  destruct (pending st1), (pending st2); try done.
  destruct (close silence describe st1 false l1) as [|s1'],
    (close silence describe st2 false l2) as [|s2']; try done.
  simpl in *. unfold shape in Hc. by simplify_eq.
Qed.

Lemma assemble_shape st1 st2 l1 l2 us1 us2 :
  shape st1 = shape st2 → us1.*1 = us2.*1 →
  agree eq (assemble silence describe st1 l1 us1)
           (assemble silence describe st2 l2 us2).
Proof.
  revert st1 st2 us2.
  induction us1 as [|[u p1] us1 IH]; intros st1 st2 [|[u' p2] us2] H Hus;
    try done.
  - by apply finish_shape.
  - simpl in Hus. injection Hus as <- Hus. simpl.
    pose proof (step_shape st1 st2 u p1 p2 H) as Hs.
    destruct (step silence describe st1 u p1),
      (step silence describe st2 u p2); try done.
    by apply IH.
Qed.

(** *** Assembling the canonical units of a list of phrases *)

Lemma extend_last_snoc c m : extend_last (c ++ [m]) = c ++ [extend_mora m].
Proof.
  induction c as [|x c IH]; [done|]. simpl. rewrite IH.
  by destruct (c ++ [m]) eqn:E; [destruct c|].
Qed.

Lemma iter_extend n kana ph d :
  Nat.iter n extend_mora (build_mora kana ph d) =
  {| text := kana ++ replicate n LONG_VOWEL_MARK; consonant := ph.1;
     consonant_length := None; vowel := ph.2; unvoiced := d;
     vowel_length := None; pitch := None |}.
Proof.
  induction n as [|n IH]; simpl.
  - by rewrite app_nil_r.
  - rewrite IH. unfold extend_mora. simpl. f_equal.
    by rewrite <- (assoc_L (++)), <- replicate_cons_app.
Qed.

Lemma run_long n f c m a s0 :
  run silence describe
    {| finished := f; cur := c ++ [m]; acc := a; start := s0;
       pending := None; question := None |}
    (zero <$> replicate n LongVowelExtension) =
  inr {| finished := f; cur := c ++ [Nat.iter n extend_mora m]; acc := a;
         start := s0; pending := None; question := None |}.
Proof.
  revert m. induction n as [|n IH]; intros m; [done|].
  cbn [replicate fmap list_fmap run zero]. unfold step. cbn.
  destruct (c ++ [m]) eqn:E; [by destruct c|]. rewrite <- E.
  rewrite extend_last_snoc, IH. by rewrite <- Nat.iter_succ_r.
Qed.

Lemma acc_at_step a n :
  acc_at a (S n) = if S n =? a then Some a else acc_at a n.
Proof.
  unfold acc_at. destruct (Nat.eqb_spec (S n) a) as [<-|Hne].
  - rewrite bool_decide_eq_true_2; [done|lia].
  - by rewrite (bool_decide_ext (1 ≤ a ≤ S n) (1 ≤ a ≤ n)) by lia.
Qed.

Lemma table_mora_built m :
  table_mora table m →
  Nat.iter (length (text m) - length (kana_run (text m))) extend_mora
    (build_mora (kana_run (text m)) (consonant m, vowel m) (unvoiced m)) =
  bare_mora m.
Proof.
  intros (_ & _ & Ht). rewrite iter_extend. unfold bare_mora. simpl.
  by rewrite <- Ht.
Qed.

Lemma run_moras ms f c a s0 :
  Forall (table_mora table) ms →
  run silence describe
    {| finished := f; cur := c; acc := acc_at a (length c); start := s0;
       pending := None; question := None |}
    (zero <$> moras_tokens (length c) a ms) =
  inr {| finished := f; cur := c ++ (bare_mora <$> ms);
         acc := acc_at a (length c + length ms); start := s0;
         pending := None; question := None |}.
Proof.
  intros Hms. revert c. induction Hms as [|m ms Hm _ IH]; intros c.
  { simpl. by rewrite app_nil_r, Nat.add_0_r. }
  cbn [moras_tokens].
  assert (Hkana : ∀ d,
    run silence describe
      {| finished := f; cur := c; acc := acc_at a (length c); start := s0;
         pending := d; question := None |}
      (zero <$> KanaMora (kana_run (text m)) (consonant m, vowel m) ::
         replicate (length (text m) - length (kana_run (text m)))
           LongVowelExtension) =
    inr {| finished := f;
           cur := c ++ [Nat.iter (length (text m) - length (kana_run (text m)))
             extend_mora (build_mora (kana_run (text m))
               (consonant m, vowel m) (bool_decide (is_Some d)))];
           acc := acc_at a (length c); start := s0;
           pending := None; question := None |}).
  { intros d. cbn [fmap list_fmap run zero]. unfold step. cbn.
    destruct d; cbn; apply run_long. }
  assert (Hmora :
    run silence describe
      {| finished := f; cur := c; acc := acc_at a (length c); start := s0;
         pending := None; question := None |}
      (zero <$> mora_tokens m) =
    inr {| finished := f; cur := c ++ [bare_mora m];
           acc := acc_at a (length c); start := s0;
           pending := None; question := None |}).
  { unfold mora_tokens. rewrite <- (table_mora_built m Hm).
    destruct (unvoiced m) eqn:Hu.
    - cbn [app]. rewrite fmap_cons. cbn [run zero]. unfold step at 1. cbn.
      apply (Hkana (Some 0)).
    - apply (Hkana None). }
  rewrite fmap_app, run_app, Hmora. cbv beta iota.
  assert (Hacc :
    run silence describe
      {| finished := f; cur := c ++ [bare_mora m];
         acc := acc_at a (length c); start := s0;
         pending := None; question := None |}
      (zero <$> (if S (length c) =? a then [AccentMark] else [])) =
    inr {| finished := f; cur := c ++ [bare_mora m];
           acc := acc_at a (length (c ++ [bare_mora m])); start := s0;
           pending := None; question := None |}).
  { rewrite length_app. cbn [length]. rewrite Nat.add_1_r, acc_at_step.
    destruct (Nat.eqb_spec (S (length c)) a) as [<-|Hne]; [|done].
    cbn [fmap list_fmap run zero]. unfold step. cbn.
    destruct (c ++ [bare_mora m]) eqn:E; [by destruct c|]. rewrite <- E.
    unfold acc_at. rewrite bool_decide_eq_false_2 by lia.
    rewrite length_app. simpl. by rewrite Nat.add_1_r. }
  rewrite fmap_app, run_app, Hacc. cbv beta iota.
  replace (S (length c)) with (length (c ++ [bare_mora m]))
    by (rewrite length_app; simpl; lia).
  rewrite IH. rewrite <- (assoc_L (++)). simpl.
  do 3 f_equal. rewrite length_app. simpl. lia.
Qed.

Lemma run_phrase p f s0 :
  canonical_phrase table p →
  run silence describe (fresh f s0) (zero <$> phrase_tokens p) =
  inr {| finished := f; cur := bare_mora <$> moras p;
         acc := Some (accent p); start := s0; pending := None;
         question := if is_interrogative p then Some 0 else None |}.
Proof.
  intros [Hms Hacc]. unfold phrase_tokens, fresh.
  rewrite fmap_app, run_app.
  pose proof (run_moras (moras p) f [] (accent p) s0 Hms) as Hrun.
  simpl in Hrun. unfold acc_at at 1 in Hrun.
  rewrite bool_decide_eq_false_2 in Hrun by lia. rewrite Hrun.
  unfold acc_at. rewrite bool_decide_eq_true_2 by done.
  by destruct (is_interrogative p).
Qed.

Lemma close_phrase p f s0 b pos :
  valid_accent p →
  close silence describe
    {| finished := f; cur := bare_mora <$> moras p;
       acc := Some (accent p); start := s0; pending := None;
       question := if is_interrogative p then Some 0 else None |} b pos =
  inr (fresh
    (f ++ [{| moras := bare_mora <$> moras p; accent := accent p;
              pause_mora := if b then Some (silent_mora silence) else None;
              is_interrogative := is_interrogative p |}]) (S pos)).
Proof.
  intros Hacc. unfold close, valid_accent in *. simpl.
  destruct (moras p) as [|m ms]; simpl in *; [lia|].
  by destruct (is_interrogative p).
Qed.

Lemma step_delimiter p f s0 :
  valid_accent p →
  step silence describe
    {| finished := f; cur := bare_mora <$> moras p;
       acc := Some (accent p); start := s0; pending := None;
       question := if is_interrogative p then Some 0 else None |}
    (delimiter_token p) 0 =
  inr (fresh (f ++ [bare_phrase silence p]) 1).
Proof.
  intros Hacc.
  pose proof (close_phrase p f s0 true 0 Hacc) as Ht.
  pose proof (close_phrase p f s0 false 0 Hacc) as Hf.
  unfold step, delimiter_token, bare_phrase. simpl.
  destruct (pause_mora p), (is_interrogative p); simpl in *; done.
Qed.

(** The assembler reads the canonical units of a list of phrases back into
    the phrases. *)
Lemma assemble_tokens_of ps f s0 len :
  ps ≠ [] → Forall (canonical_phrase table) ps →
  (∀ p, last ps = Some p → pause_mora p = None) →
  assemble silence describe (fresh f s0) len (zero <$> tokens_of ps) =
  inr (f ++ (bare_phrase silence <$> ps)).
Proof.
  intros Hne Hps. revert f s0 Hne.
  induction Hps as [|p ps Hp Hps IH]; intros f s0 Hne Hlast; [done|].
  destruct ps as [|q ps].
  - cbn [tokens_of]. rewrite assemble_run, run_phrase by done.
    unfold finish. cbn [pending].
    destruct Hp as [_ Hacc]. rewrite close_phrase by done. simpl.
    unfold bare_phrase. by rewrite (Hlast p).
  - cbn [tokens_of]. rewrite fmap_app, assemble_app, run_phrase by done.
    rewrite fmap_cons. cbn [assemble zero].
    destruct Hp as [_ Hacc]. rewrite step_delimiter by done.
    rewrite IH; [|done|].
    + by rewrite <- (assoc_L (++)).
    + intros r Hr. apply Hlast. by rewrite last_cons, Hr.
Qed.

(** *** The serializer writes the canonical units *)

Lemma spell_long n :
  replicate n LongVowelExtension ≫= spell = replicate n LONG_VOWEL_MARK.
Proof. induction n as [|n IH]; [done|]. cbn. by rewrite IH. Qed.

Lemma mora_tokens_spell m :
  table_mora table m →
  mora_tokens m ≫= spell =
  (if unvoiced m then [DEVOICE_MARK] else []) ++ text m.
Proof.
  intros (_ & _ & Ht). unfold mora_tokens.
  rewrite bind_app, bind_cons, spell_long. cbn [spell].
  rewrite <- Ht. by destruct (unvoiced m).
Qed.

Lemma emit_moras_spell i a ms :
  Forall (table_mora table) ms →
  emit_moras i a ms = moras_tokens i a ms ≫= spell.
Proof.
  intros Hms. revert i. induction Hms as [|m ms Hm _ IH]; intros i; [done|].
  cbn [emit_moras moras_tokens].
  rewrite !bind_app, mora_tokens_spell, <- IH by done.
  rewrite <- !(assoc_L (++)). by destruct (S i =? a).
Qed.

Lemma emit_phrase_spell p :
  canonical_phrase table p → emit_phrase p = phrase_tokens p ≫= spell.
Proof.
  intros [Hms _]. unfold emit_phrase, phrase_tokens.
  rewrite bind_app, <- emit_moras_spell by done.
  by destruct (is_interrogative p).
Qed.

Lemma create_kana_spell ps :
  Forall (canonical_phrase table) ps →
  create_kana ps = tokens_of ps ≫= spell.
Proof.
  induction 1 as [|p ps Hp Hps IH]; [done|].
  destruct ps as [|q ps].
  - by apply emit_phrase_spell.
  - change (create_kana (p :: q :: ps))
      with (emit_phrase p ++ [delimiter_of p] ++ create_kana (q :: ps)).
    change (tokens_of (p :: q :: ps))
      with (phrase_tokens p ++ delimiter_token p :: tokens_of (q :: ps)).
    rewrite bind_app, bind_cons, <- IH, <- emit_phrase_spell by done.
    unfold delimiter_of, delimiter_token. by destruct (pause_mora p).
Qed.

Lemma good_long n :
  Forall (good_token table) (replicate n LongVowelExtension).
Proof. induction n; by constructor. Qed.

Lemma good_moras_tokens i a ms :
  Forall (table_mora table) ms →
  Forall (good_token table) (moras_tokens i a ms).
Proof.
  intros Hms. revert i.
  induction Hms as [|m ms (Hne & Ht & _) _ IH]; intros i;
    [constructor|].
  cbn [moras_tokens]. unfold mora_tokens.
  repeat apply Forall_app_2; try apply IH.
  - destruct (unvoiced m); by repeat constructor.
  - constructor; [|apply good_long].
    split; [done|]. split; [apply kana_run_free|done].
  - destruct (S i =? a); by repeat constructor.
Qed.

Lemma good_tokens_of ps :
  Forall (canonical_phrase table) ps →
  Forall (good_token table) (tokens_of ps).
Proof.
  assert (Hph : ∀ p, canonical_phrase table p →
                     Forall (good_token table) (phrase_tokens p)).
  { intros p [Hms _]. unfold phrase_tokens.
    apply Forall_app_2; [by apply good_moras_tokens|].
    destruct (is_interrogative p); by repeat constructor. }
  induction 1 as [|p ps Hp Hps IH]; [constructor|].
  destruct ps as [|q ps]; [by apply Hph|].
  change (tokens_of (p :: q :: ps))
    with (phrase_tokens p ++ delimiter_token p :: tokens_of (q :: ps)).
  apply Forall_app_2; [by apply Hph|]. constructor; [|done].
  unfold delimiter_token. by destruct (pause_mora p).
Qed.

(** Parsing the notation written for a canonical list of phrases gives the
    phrases back, without their numeric fields. *)
Lemma parse_create ps :
  canonical table ps →
  parse_kana table silence describe (create_kana ps) =
  inr (bare_phrase silence <$> ps).
Proof.
  intros (Hne & Hps & Hlast & Hseg).
  unfold parse_kana, tokenize.
  pose proof (assemble_tokens_of ps [] 0 0 Hne Hps Hlast) as Hz.
  pose proof (assemble_shape initial (fresh [] 0)
    (length (create_kana ps)) 0
    (scan table 0 0 (create_kana ps)) (zero <$> tokens_of ps)
    eq_refl) as Hag.
  rewrite Hz in Hag.
  destruct (assemble silence describe initial (length (create_kana ps))
    (scan table 0 0 (create_kana ps))) as [e|qs].
  - exfalso. apply Hag.
    rewrite create_kana_spell, scan_spell by auto using good_tokens_of.
    rewrite <- list_fmap_compose. symmetry. apply list_fmap_id.
  - f_equal. apply Hag.
    rewrite create_kana_spell, scan_spell by auto using good_tokens_of.
    rewrite <- list_fmap_compose. symmetry. apply list_fmap_id.
Qed.

Lemma bare_phrase_same p : same_phrase (bare_phrase silence p) p.
Proof.
  unfold same_phrase, bare_phrase. simpl. repeat split.
  - induction (moras p) as [|m ms IH]; constructor; [|done]. by repeat split.
  - destruct (pause_mora p); [by eexists|by intros [? ?]].
  - destruct (pause_mora p); [by eexists|by intros [? ?]].
Qed.

Lemma bare_grammar_equal ps : grammar_equal (bare_phrase silence <$> ps) ps.
Proof.
  induction ps as [|p ps IH]; constructor; [apply bare_phrase_same|done].
Qed.

(** *** What the assembler keeps true *)

Lemma lead_app_stop A m Y :
  is_kana_token m = false → lead (A ++ m :: Y) = lead A.
Proof.
  intros Hm. induction A as [|u A IH]; simpl; [by destruct m|].
  destruct u; try done. by rewrite IH.
Qed.

Lemma segmented_app_stop A m Y :
  is_kana_token m = false →
  segmented table (A ++ m :: Y) = segmented table A && segmented table Y.
Proof.
  intros Hm. induction A as [|u A IH].
  - simpl. by destruct m.
  - change ((u :: A) ++ m :: Y) with (u :: (A ++ m :: Y)).
    cbn [segmented]. rewrite IH, andb_assoc.
    change (u :: (A ++ m :: Y)) with ((u :: A) ++ m :: Y).
    by rewrite lead_app_stop.
Qed.

Lemma segmented_swap X r :
  segmented table (X ++ AccentMark :: LongVowelExtension :: r) =
  segmented table (X ++ LongVowelExtension :: AccentMark :: r).
Proof. by rewrite !segmented_app_stop. Qed.

Lemma moras_tokens_app i a ms ms' :
  moras_tokens i a (ms ++ ms') =
  moras_tokens i a ms ++ moras_tokens (i + length ms) a ms'.
Proof.
  revert i. induction ms as [|m ms IH]; intros i; simpl.
  - by rewrite Nat.add_0_r.
  - rewrite IH, <- !(assoc_L (++)). do 4 f_equal. lia.
Qed.

Lemma moras_tokens_snoc a c m :
  moras_tokens 0 a (c ++ [m]) =
  moras_tokens 0 a c ++ mora_tokens m ++
  (if S (length c) =? a then [AccentMark] else []).
Proof.
  rewrite moras_tokens_app. cbn [moras_tokens]. by rewrite app_nil_r.
Qed.

Lemma closed_tokens_snoc ps p :
  closed_tokens (ps ++ [p]) =
  closed_tokens ps ++ phrase_tokens p ++ [delimiter_token p].
Proof. unfold closed_tokens. rewrite bind_app. simpl. by rewrite app_nil_r. Qed.

Lemma tokens_of_snoc ps p :
  tokens_of (ps ++ [p]) = closed_tokens ps ++ phrase_tokens p.
Proof.
  induction ps as [|q ps IH]; [done|].
  change ((q :: ps) ++ [p]) with (q :: (ps ++ [p])).
  destruct (ps ++ [p]) as [|x l] eqn:E; [by destruct ps|].
  change (tokens_of (q :: x :: l))
    with (phrase_tokens q ++ delimiter_token q :: tokens_of (x :: l)).
  rewrite IH. unfold closed_tokens. cbn.
  by rewrite <- !(assoc_L (++)).
Qed.

Lemma mora_tokens_extend m :
  mora_tokens (extend_mora m) = mora_tokens m ++ [LongVowelExtension].
Proof.
  unfold mora_tokens, extend_mora. simpl.
  rewrite kana_run_snoc_marker by done.
  rewrite length_app. simpl.
  destruct (kana_run_prefix (text m)) as [w Hw].
  assert (Hlen : length (text m) + 1 - length (kana_run (text m)) =
                 S (length (text m) - length (kana_run (text m)))).
  { rewrite Hw at 1 3. rewrite length_app. lia. }
  rewrite Hlen. cbn [replicate]. rewrite replicate_cons_app.
  by rewrite <- !(assoc_L (++)).
Qed.

Lemma parsed_mora_extend m :
  parsed_mora table m → parsed_mora table (extend_mora m).
Proof.
  intros [(Hne & Ht & Htext) Hb]. split; [|by rewrite <- Hb].
  unfold table_mora, extend_mora. simpl.
  rewrite kana_run_snoc_marker by done. repeat split; try done.
  rewrite length_app. simpl.
  destruct (kana_run_prefix (text m)) as [w Hw].
  assert (Hlen : length (text m) + 1 - length (kana_run (text m)) =
                 S (length (text m) - length (kana_run (text m)))).
  { rewrite Hw at 1 3. rewrite length_app. lia. }
  rewrite Hlen. cbn [replicate]. rewrite replicate_cons_app.
  rewrite (assoc_L (++)). by rewrite <- Htext.
Qed.

Lemma parsed_mora_build kana ph d :
  good_token table (KanaMora kana ph) →
  parsed_mora table (build_mora kana ph d) ∧
  mora_tokens (build_mora kana ph d) =
  (if d then [Devoice] else []) ++ [KanaMora kana ph].
Proof.
  intros (Hne & Hfree & Ht). destruct ph as [c v].
  unfold parsed_mora, table_mora, mora_tokens, build_mora. simpl.
  rewrite kana_run_id, Nat.sub_diag by done. simpl.
  by rewrite app_nil_r.
Qed.

Lemma close_ok st b pos st' :
  close silence describe st b pos = inr st' →
  state_ok table silence st → pending st = None →
  state_ok table silence st' ∧
  state_tokens st' =
    state_tokens st ++ [if b then PauseDelimiter else PlainDelimiter] ∧
  state_tokens st' = closed_tokens (finished st') ∧
  ∃ p, finished st' = finished st ++ [p] ∧
       pause_mora p = if b then Some (silent_mora silence) else None.
Proof.
  destruct st as [f c a s0 d q]. unfold close, state_ok. fields.
  intros H (Hf & Hc & Ha & _) ->.
  destruct c as [|m c]; [done|]. destruct a as [a|]; [|done].
  injection H as <-. fields. split; [|split; [|split]];
    [| |unfold state_tokens; fields; cbn [moras_tokens];
        by rewrite !app_nil_r|].
  - split_and!; [|constructor|done|by left].
    apply Forall_app_2; [done|]. constructor; [|done].
    split_and!; fields; [done|apply (Ha a eq_refl)..|destruct b; auto].
  - unfold state_tokens. fields. rewrite closed_tokens_snoc.
    unfold phrase_tokens, delimiter_token. fields.
    cbn [moras_tokens default]. rewrite !app_nil_r, <- !(assoc_L (++)).
    do 2 f_equal. by destruct q, b.
  - by eexists.
Qed.

Lemma moras_tokens_accent i ms :
  ms ≠ [] →
  moras_tokens i (i + length ms) ms = moras_tokens i 0 ms ++ [AccentMark].
Proof.
  revert i. induction ms as [|m ms IH]; intros i Hne; [done|].
  cbn [moras_tokens length]. destruct ms as [|m' ms].
  - simpl. rewrite Nat.add_1_r, Nat.eqb_refl.
    by rewrite <- !(assoc_L (++)).
  - replace (i + S (length (m' :: ms))) with (S i + length (m' :: ms)) by lia.
    rewrite IH by done.
    destruct (Nat.eqb_spec (S i) (S i + length (m' :: ms))) as [E|_];
      [simpl in E; lia|].
    by rewrite <- !(assoc_L (++)).
Qed.

Lemma step_ok st u pos st' r :
  step silence describe st u pos = inr st' →
  state_ok table silence st → scanned_token table u →
  state_ok table silence st' ∧
  (segmented table (state_tokens st ++ u :: r) = true →
   segmented table (state_tokens st' ++ r) = true).
Proof.
  intros Hstep Hok [->|Hu]; [done|].
  assert (Hsnoc : ∀ st1, state_ok table silence st1 →
            state_tokens st1 = state_tokens st ++ [u] →
            state_ok table silence st1 ∧
            (segmented table (state_tokens st ++ u :: r) = true →
             segmented table (state_tokens st1 ++ r) = true)).
  { intros st1 ? ->. split; [done|]. by rewrite <- (assoc_L (++)). }
  pose proof (close_ok st false pos st') as Hplain.
  pose proof (close_ok st true pos st') as Hpause.
  destruct st as [f c a s0 d q]. pose proof Hok as (Hf & Hc & Ha & Hdq).
  unfold step in Hstep. fields.
  destruct q as [q|].
  { destruct Hdq as [->|?]; [|done].
    destruct u; try done.
    - destruct Hplain as (? & ? & _); try done. by apply Hsnoc.
    - destruct Hpause as (? & ? & _); try done. by apply Hsnoc. }
  destruct d as [d|].
  { destruct u as [| | | | | |kana ph|]; try done. injection Hstep as <-.
    destruct (parsed_mora_build kana ph true Hu) as [Hm Htok].
    apply Hsnoc.
    - split_and!; fields; [done|by apply Forall_app_2; [|constructor]| |by left].
      intros a' Ha'. apply Ha in Ha'. rewrite length_app. simpl. lia.
    - unfold state_tokens. fields. rewrite moras_tokens_snoc, Htok.
      destruct (Nat.eqb_spec (S (length c)) (default 0 a)) as [E|_].
      + destruct a as [a|]; [|done]. specialize (Ha a eq_refl).
        simpl in E. lia.
      + by rewrite !app_nil_r, <- !(assoc_L (++)). }
  destruct u as [| | | | | |kana ph|]; try done.
  - (* accent mark *)
    destruct c as [|m c]; [done|]. destruct a as [a|]; [done|].
    injection Hstep as <-. apply Hsnoc.
    + split_and!; fields; [done|done| |by left].
      intros a' [= <-]. simpl. lia.
    + unfold state_tokens. fields.
      change (closed_tokens f ++
                moras_tokens 0 (0 + length (m :: c)) (m :: c) ++ [] ++ [] =
              (closed_tokens f ++ moras_tokens 0 0 (m :: c) ++ [] ++ []) ++
                [AccentMark]).
      rewrite (moras_tokens_accent 0 (m :: c)) by done.
      by rewrite !app_nil_r, <- !(assoc_L (++)).
  - (* devoicing mark *)
    injection Hstep as <-. apply Hsnoc.
    + split_and!; fields; try done. by right.
    + unfold state_tokens. fields. by rewrite !app_nil_r, <- !(assoc_L (++)).
  - (* plain delimiter *)
    destruct Hplain as (? & ? & _); try done. by apply Hsnoc.
  - (* pause delimiter *)
    destruct Hpause as (? & ? & _); try done. by apply Hsnoc.
  - (* interrogative mark *)
    injection Hstep as <-. apply Hsnoc.
    + split_and!; fields; try done. by left.
    + unfold state_tokens. fields. by rewrite !app_nil_r, <- !(assoc_L (++)).
  - (* long-vowel mark *)
    assert (Hc' : c = [] ∨ ∃ c1 m, c = c1 ++ [m]).
    { destruct c as [|x l _] using rev_ind; [by left|by eauto]. }
    destruct Hc' as [->|(c1 & m & ->)]; [done|].
    destruct (c1 ++ [m]) as [|m0 c0] eqn:Ec; [done|]. rewrite <- Ec in *.
    clear Ec. injection Hstep as <-.
    rewrite extend_last_snoc.
    apply Forall_app in Hc as [Hc1 Hm]. apply Forall_cons in Hm as [Hm _].
    split.
    + split_and!; fields; [done| | |by left].
      * apply Forall_app_2; [done|]. constructor; [|done].
        by apply parsed_mora_extend.
      * intros a' Ha'. apply Ha in Ha'. rewrite length_app in *. simpl in *. lia.
    + unfold state_tokens. fields.
      rewrite !moras_tokens_snoc, mora_tokens_extend, !app_nil_r.
      destruct (S (length c1) =? default 0 a).
      * intros H.
        set (X := closed_tokens f ++
                  moras_tokens 0 (default 0 a) c1 ++ mora_tokens m) in *.
        lazymatch goal with
        | |- segmented _ ?l = true =>
            replace l with (X ++ LongVowelExtension :: AccentMark :: r)
              by (unfold X; by rewrite <- !(assoc_L (++)))
        end.
        lazymatch type of H with
        | segmented _ ?l = true =>
            replace l with (X ++ AccentMark :: LongVowelExtension :: r) in H
              by (unfold X; by rewrite <- !(assoc_L (++)))
        end.
        by rewrite <- segmented_swap.
      * by rewrite !app_nil_r, <- !(assoc_L (++)).
  - (* katakana *)
    injection Hstep as <-.
    destruct (parsed_mora_build kana ph false Hu) as [Hm Htok].
    apply Hsnoc.
    + split_and!; fields; [done|by apply Forall_app_2; [|constructor]| |by left].
      intros a' Ha'. apply Ha in Ha'. rewrite length_app. simpl. lia.
    + unfold state_tokens. fields. rewrite moras_tokens_snoc, Htok.
      destruct (Nat.eqb_spec (S (length c)) (default 0 a)) as [E|_].
      * destruct a as [a|]; [|done]. specialize (Ha a eq_refl).
        simpl in E. lia.
      * by rewrite !app_nil_r, <- !(assoc_L (++)).
Qed.

Lemma initial_ok : state_ok table silence initial.
Proof. split_and!; try constructor; try done. Qed.

Lemma assemble_ok us st len ps :
  assemble silence describe st len us = inr ps →
  state_ok table silence st → Forall (scanned_token table) us.*1 →
  segmented table (state_tokens st ++ us.*1) = true →
  Forall (parsed_phrase table silence) ps ∧ ps ≠ [] ∧
  (∀ p, last ps = Some p → pause_mora p = None) ∧
  segmented table (tokens_of ps) = true.
Proof.
  revert st. induction us as [|[u pos] us IH]; intros st Hrun Hok Hus Hseg.
  - simpl in Hrun. unfold finish in Hrun.
    destruct (pending st) eqn:Hd; [done|].
    destruct (close silence describe st false len) as [|st'] eqn:Hc; [done|].
    injection Hrun as <-.
    destruct (close_ok _ _ _ _ Hc Hok Hd)
      as ((Hf & _) & Htok & Hcl & p & Hp & Hpause).
    rewrite Hp in *. split_and!.
    + done.
    + by destruct (finished st).
    + intros p'. rewrite last_snoc. by intros [= <-].
    + rewrite tokens_of_snoc. rewrite Hcl, closed_tokens_snoc in Htok.
      unfold delimiter_token in Htok. rewrite Hpause in Htok.
      rewrite !(assoc_L (++)) in Htok. apply (inj (.++ _)) in Htok.
      rewrite Htok. simpl in Hseg. by rewrite app_nil_r in Hseg.
  - rewrite fmap_cons in Hus, Hseg. cbn [assemble fst] in *.
    apply Forall_cons in Hus as [Hu Hus].
    destruct (step silence describe st u pos) as [|st'] eqn:Hs; [done|].
    destruct (step_ok _ _ _ _ us.*1 Hs Hok Hu) as [Hok' Hseg'].
    apply (IH st'); auto.
Qed.

Lemma parsed_canonical p :
  parsed_phrase table silence p →
  canonical_phrase table p ∧ bare_phrase silence p = p.
Proof.
  destruct p as [ms a pm qi]. intros (Hms & Ha & Hp). fields. split.
  - split; [|done]. eapply Forall_impl; [done|]. by intros m [? _].
  - unfold bare_phrase. fields. f_equal.
    + clear Ha. induction Hms as [|m ms [_ Hm] _ IH]; [done|].
      rewrite fmap_cons, IH. by rewrite Hm.
    + by destruct Hp as [->| ->].
Qed.

(** A successful parse returns a canonical list of phrases, with the
    numeric fields absent. *)
Lemma parse_canonical s ps :
  parse_kana table silence describe s = inr ps →
  Forall (parsed_phrase table silence) ps ∧
  canonical table ps ∧ bare_phrase silence <$> ps = ps.
Proof.
  intros H. unfold parse_kana, tokenize in H.
  apply assemble_ok in H as (Hps & Hne & Hlast & Hseg);
    [|apply initial_ok|apply scan_good|apply scan_segmented].
  split; [done|]. split.
  - split_and!; try done. eapply Forall_impl; [done|].
    intros p Hp. by apply parsed_canonical.
  - clear Hne Hlast Hseg. induction Hps as [|p ps Hp _ IH]; [done|].
    rewrite fmap_cons, IH. by destruct (parsed_canonical _ Hp) as [_ ->].
Qed.

(** *** Accent positions *)

Lemma filter_accent_none a s n :
  a < s → filter (λ i, i = a) (seq s n) = [].
Proof.
  revert s. induction n as [|n IH]; intros s Ha; [done|].
  cbn [seq]. rewrite filter_cons. destruct (decide (s = a)) as [->|Hne]; [lia|].
  apply IH. lia.
Qed.

Lemma filter_accent a s n :
  s ≤ a < s + n → filter (λ i, i = a) (seq s n) = [a].
Proof.
  revert s. induction n as [|n IH]; intros s Ha; [lia|].
  cbn [seq]. rewrite filter_cons. destruct (decide (s = a)) as [->|Hne].
  - f_equal. apply filter_accent_none. lia.
  - apply IH. lia.
Qed.

(** *** Phrase boundaries *)

Lemma closers_kana kana rest :
  Forall (λ c, is_marker c = false) kana →
  closers (kana ++ rest) = closers rest.
Proof.
  induction 1 as [|c kana Hc _ IH]; [done|]. cbn [app closers].
  destruct (N.eqb_spec c PAUSE_DELIMITER) as [->|_]; [done|].
  destruct (N.eqb_spec c PLAIN_DELIMITER) as [->|_]; [done|]. done.
Qed.

Lemma closers_classify c u r us :
  classify c = Some u → token_closers us = closers r →
  token_closers (u :: us) = closers (c :: r).
Proof.
  unfold classify. cbn [closers]. intros Hc <-.
  destruct (N.eqb_spec c PAUSE_DELIMITER) as [->|Hpause];
    [by injection Hc as <-|].
  destruct (N.eqb_spec c PLAIN_DELIMITER) as [->|Hplain];
    [by injection Hc as <-|].
  repeat (lazymatch type of Hc with
          | context [(c =? ?x)%N] => destruct (N.eqb_spec c x) as [->|_]
          end; [by injection Hc as <-|]).
  done.
Qed.

Lemma scan_closers pos s :
  Forall (λ u, u ≠ Unknown) (scan table 0 pos s).*1 →
  token_closers (scan table 0 pos s).*1 = closers s.
Proof.
  remember (length s) as n eqn:Hn. revert pos s Hn.
  induction n as [n IH] using lt_wf_ind. intros pos [|c r] Hn; [done|].
  cbn [scan]. destruct (classify c) as [u|] eqn:Hc.
  - cbn [fmap list_fmap fst]. intros [_ Hk]%Forall_cons.
    apply closers_classify; [done|].
    apply (IH (length r)); [subst n; simpl; lia|done|done].
  - destruct (longest_match table (kana_run (c :: r))) as [[kana ph]|] eqn:E.
    + destruct (scan_kana_step _ _ _ _ _ Hc E) as (rest & Hs & Hrun & Hg & Hscan).
      rewrite Hscan, Hs. cbn [fmap list_fmap fst token_closers].
      intros [_ Hk]%Forall_cons. destruct Hg as (Hne & Hfree & _).
      rewrite closers_kana by done. apply (IH (length rest)); [|done|done].
      subst n. rewrite Hs, length_app. destruct kana; [done|simpl; lia].
    + cbn. by intros [? _]%Forall_cons.
Qed.

Lemma close_finished st b pos st' :
  close silence describe st b pos = inr st' →
  pause_mora <$> finished st' =
  (pause_mora <$> finished st) ++
    [if b then Some (silent_mora silence) else None].
Proof.
  unfold close. destruct (cur st); [done|]. destruct (acc st); [|done].
  intros [= <-]. fields. by rewrite fmap_app.
Qed.

Lemma step_finished st u pos st' :
  step silence describe st u pos = inr st' →
  u ≠ Unknown ∧
  ∀ l, (pause_mora <$> finished st') ++
         ((λ b : bool, if b then Some (silent_mora silence) else None) <$> l) =
       (pause_mora <$> finished st) ++
         ((λ b : bool, if b then Some (silent_mora silence) else None) <$>
            match u with
            | PauseDelimiter => true :: l
            | PlainDelimiter => false :: l
            | _ => l
            end).
Proof.
  intros H. split; [by intros ->|]. intros l.
  pose proof (close_finished st false pos st') as Hplain.
  pose proof (close_finished st true pos st') as Hpause.
  unfold step in H.
  destruct u; try done;
    destruct (question st); try done;
    destruct (pending st); try done;
    try (rewrite Hplain by done; by rewrite <- (assoc_L (++)));
    try (rewrite Hpause by done; by rewrite <- (assoc_L (++)));
    try (by injection H as <-);
    destruct (cur st); try done; try (by injection H as <-);
    destruct (acc st); try done; by injection H as <-.
Qed.

Lemma assemble_closers us st len ps :
  assemble silence describe st len us = inr ps →
  Forall (λ u, u ≠ Unknown) us.*1 ∧
  pause_mora <$> ps =
  (pause_mora <$> finished st) ++
    ((λ b : bool, if b then Some (silent_mora silence) else None) <$>
       token_closers us.*1).
Proof.
  revert st. induction us as [|[u pos] us IH]; intros st H.
  - split; [constructor|]. simpl in H. unfold finish in H.
    destruct (pending st); [done|].
    destruct (close silence describe st false len) as [|st'] eqn:Hc; [done|].
    injection H as <-. by apply close_finished in Hc.
  - simpl in H.
    destruct (step silence describe st u pos) as [|st'] eqn:Hs; [done|].
    apply step_finished in Hs as [Hu Hs].
    destruct (IH _ H) as [Hus ->]. split; [by constructor|].
    rewrite Hs. cbn [fmap list_fmap fst token_closers]. by destruct u.
Qed.

(** *** The properties of the notation *)

(** C1, amended (reverse round trip): for every canonical list of phrases
    (at least one phrase, every mora a token of the table followed by
    long-vowel marks only, a valid accent in every phrase, no pause mora on
    the last phrase, katakana that longest match cuts back into the same
    tokens), parsing the serialized notation succeeds and gives the phrases
    back in all grammar-relevant fields: mora identity, accent index,
    presence of a pause mora, interrogative flag. *)
Theorem reverse_round_trip ps :
  canonical table ps →
  ∃ qs, parse_kana table silence describe (create_kana ps) = inr qs ∧
        grammar_equal qs ps.
Proof.
  intros Hps. exists (bare_phrase silence <$> ps). split.
  - by apply parse_create.
  - apply bare_grammar_equal.
Qed.

(** C2 (forward round trip): when a notation parses, serializing the result
    gives a notation that parses again, to the very same list of phrases. *)
Theorem forward_round_trip s ps :
  parse_kana table silence describe s = inr ps →
  parse_kana table silence describe (create_kana ps) = inr ps.
Proof.
  intros H. destruct (parse_canonical _ _ H) as (_ & Hcan & Hbare).
  rewrite <- Hbare at 2. by apply parse_create.
Qed.

(** C3 (accent invariant): in every phrase of a successful parse the accent
    lies between 1 and the number of moras, and exactly one position of
    the phrase carries it. *)
Theorem accent_invariant s ps :
  parse_kana table silence describe s = inr ps →
  Forall (λ p, 1 ≤ accent p ≤ length (moras p) ∧
               length (accent_positions p) = 1) ps.
Proof.
  intros H. destruct (parse_canonical _ _ H) as (Hps & _ & _).
  eapply Forall_impl; [done|]. intros p (_ & Ha & _). split; [done|].
  unfold accent_positions. rewrite filter_accent; [done|].
  unfold valid_accent in Ha. lia.
Qed.

(** C4 (pause placement): the phrases of a successful parse correspond one
    to one to the closers of the input; a phrase closed by the pause
    delimiter has the synthesized silent mora (empty text, silence vowel,
    no consonant) as its pause mora, and a phrase closed by the plain
    delimiter or by the end of the input has none. *)
Theorem pause_placement s ps :
  parse_kana table silence describe s = inr ps →
  pause_mora <$> ps =
    (λ b : bool, if b then Some (silent_mora silence) else None) <$> closers s ∧
  text (silent_mora silence) = [] ∧
  vowel (silent_mora silence) = silence ∧
  consonant (silent_mora silence) = None.
Proof.
  intros H. split; [|done]. unfold parse_kana, tokenize in H.
  apply assemble_closers in H as [Hknown ->]. simpl.
  by rewrite scan_closers.
Qed.

(** C5 (position of a duplicate accent mark): when KA and KI are tokens of
    the table, parsing KA ' KI ' KU fails with MultipleAccentMarks at
    offset 3, the offset of the second accent mark. *)
Theorem duplicate_accent_position :
  is_Some (table !! [Sample.KA]) → is_Some (table !! [Sample.KI]) →
  parse_kana table silence describe Sample.duplicate_accent =
  inl {| message := describe MultipleAccentMarks;
         error_name := MultipleAccentMarks; position := 3 |}.
Proof.
  intros [pa Ha] [pi Hi].
  unfold parse_kana, tokenize, Sample.duplicate_accent.
  assert (Hscan : ∀ c ph pos r,
    classify c = None → table !! [c] = Some ph →
    scan table 0 pos (c :: ACCENT_MARK :: r) =
    (KanaMora [c] ph, pos) :: (AccentMark, S pos) :: scan table 0 (S (S pos)) r).
  { intros c ph pos r Hc Ht. cbn [scan]. rewrite Hc.
    assert (Hrun : kana_run (c :: ACCENT_MARK :: r) = [c]).
    { cbn [kana_run]. unfold is_marker. by rewrite Hc. }
    rewrite Hrun. unfold longest_match. cbn [length match_upto take].
    by rewrite Ht. }
  rewrite (Hscan _ pa), (Hscan _ pi) by done.
  by destruct pa, pi.
Qed.

End Assembler.

(** C1, as stated, fails.  In each of these lists every phrase has a
    valid accent, yet parsing the serialized notation does not give a list
    equal to it in the grammar-relevant fields: the pause mora of a last
    phrase is not written; the empty list is written as the empty
    notation, which is an empty phrase; a mora whose text is no token of
    the table is an unknown character; a mora is read back with the
    phonemes of the table, not its own; and two moras whose texts join to
    a longer token are read back as one. *)
Lemma reverse_round_trip_fails :
  Forall (λ ps, Forall valid_accent ps ∧
                ¬ ∃ qs, Sample.parse (create_kana ps) = inr qs ∧
                        grammar_equal qs ps)
    [Sample.paused; []; Sample.foreign; Sample.mismatched;
     Sample.split_palatal].
Proof.
  assert (Hno : ∀ ps r,
    Sample.parse (create_kana ps) = r →
    match r with
    | inl _ => True
    | inr qs => bool_decide (grammar_equal qs ps) = false
    end →
    ¬ ∃ qs, Sample.parse (create_kana ps) = inr qs ∧ grammar_equal qs ps).
  { intros ps r -> Hr (qs & Hqs & Heq). rewrite Hqs in Hr.
    by apply bool_decide_eq_false in Hr. }
  repeat apply Forall_cons_2; try apply Forall_nil_2;
    (split; [by repeat constructor|]);
    (eapply Hno; [by vm_compute|by vm_compute]).
Qed.

(** The amended reverse round trip on two phrases with numeric fields
    filled in. *)
Lemma reverse_round_trip_witness :
  canonical Sample.table Sample.filled ∧
  ∃ qs, Sample.parse (create_kana Sample.filled) = inr qs ∧
        grammar_equal qs Sample.filled.
Proof.
  assert (H : canonical Sample.table Sample.filled).
  { split_and!.
    - done.
    - apply (bool_decide_unpack _). by vm_compute.
    - by intros p [= <-].
    - by vm_compute. }
  split; [exact H|].
  exact (reverse_round_trip Sample.table Sample.silence Sample.describe
           Sample.filled H).
Defined.

Lemma forward_round_trip_witness :
  Sample.parse Sample.notation = inr Sample.parsed ∧
  Sample.parse (create_kana Sample.parsed) = inr Sample.parsed.
Proof.
  assert (H : Sample.parse Sample.notation = inr Sample.parsed)
    by (vm_compute; reflexivity).
  split; [exact H|].
  exact (forward_round_trip Sample.table Sample.silence Sample.describe
           Sample.notation Sample.parsed H).
Defined.

Lemma accent_invariant_witness :
  Sample.parse Sample.notation = inr Sample.parsed ∧
  Forall (λ p, 1 ≤ accent p ≤ length (moras p) ∧
               length (accent_positions p) = 1) Sample.parsed.
Proof.
  assert (H : Sample.parse Sample.notation = inr Sample.parsed)
    by (vm_compute; reflexivity).
  split; [exact H|].
  exact (accent_invariant Sample.table Sample.silence Sample.describe
           Sample.notation Sample.parsed H).
Defined.

Lemma pause_placement_witness :
  Sample.parse Sample.notation = inr Sample.parsed ∧
  pause_mora <$> Sample.parsed =
    [Some (silent_mora Sample.silence); None; None].
Proof.
  assert (H : Sample.parse Sample.notation = inr Sample.parsed)
    by (vm_compute; reflexivity).
  split; [exact H|].
  exact (proj1 (pause_placement Sample.table Sample.silence Sample.describe
                  Sample.notation Sample.parsed H)).
Defined.

Lemma duplicate_accent_position_witness :
  Sample.parse Sample.duplicate_accent =
  inl {| message := "more than one accent mark";
         error_name := MultipleAccentMarks; position := 3 |}.
Proof.
  apply (duplicate_accent_position Sample.table Sample.silence
           Sample.describe); by eexists.
Defined.

(** *** The other notations of section 8 of the spec, on the sample table *)

Example missing_accent :
  Sample.parse Sample.no_accent =
  inl {| message := "accent mark missing";
         error_name := MissingAccentMark; position := 0 |}.
Proof. by vm_compute. Qed.

Example interrogative_at_end :
  Sample.parse Sample.question_at_end =
  inr [{| moras := [build_mora [Sample.KO] (Some "k", "o") false;
                    build_mora [Sample.N'] (None, "N") false;
                    build_mora [Sample.NI] (Some "n", "i") false;
                    build_mora [Sample.CHI] (Some "ch", "i") false;
                    build_mora [Sample.WA] (Some "w", "a") false];
          accent := 5; pause_mora := None; is_interrogative := true |}].
Proof. by vm_compute. Qed.

Example interrogative_misplaced :
  Sample.parse Sample.question_inside =
  inl {| message := "interrogative mark not at the end";
         error_name := InterrogativeMarkMisplaced; position := 1 |}.
Proof. by vm_compute. Qed.

Example devoicing :
  Sample.parse Sample.devoiced_first =
  inr [{| moras := [build_mora [Sample.SU] (Some "s", "u") true; Sample.ku];
          accent := 1; pause_mora := None; is_interrogative := false |}].
Proof. by vm_compute. Qed.

Example multi_phrase_with_pause :
  ∃ ps, Sample.parse Sample.two_phrases = inr ps ∧
        pause_mora <$> ps = [Some (silent_mora Sample.silence); None] ∧
        create_kana ps = Sample.two_phrases.
Proof. eexists. split; [by vm_compute|]. split; by vm_compute. Qed.

End KanaFacts.

(** * Facts about the HTTP layer *)

Module HttpFacts.
Import Http.

Section Lru.

Context {K V : Type} `{EqDecision K}.
Implicit Types (c : list (K * V)) (k : K).

Lemma cache_find_Some k c v : cache_find k c = Some v → k ∈ c.*1.
Proof.
  induction c as [|[k' v'] c IH]; simpl; [done|].
  destruct (decide (k' = k)) as [->|_]; [intros _; by left|].
  intros Hf. right. by apply IH.
Qed.

Lemma cache_find_None k c : cache_find k c = None → k ∉ c.*1.
Proof.
  induction c as [|[k' v'] c IH]; simpl; [intros _; by apply not_elem_of_nil|].
  destruct (decide (k' = k)) as [->|Hne]; [done|].
  intros Hf. apply not_elem_of_cons. split; [done|by apply IH].
Qed.

Lemma cache_remove_keys k c :
  (cache_remove k c).*1 = filter (λ k', k' ≠ k) c.*1.
Proof.
  unfold cache_remove. induction c as [|[k' v'] c IH]; [done|].
  rewrite fmap_cons, !filter_cons. cbn [fst].
  destruct (decide (k' ≠ k)); [rewrite fmap_cons|]; by rewrite IH.
Qed.

Lemma cache_remove_length k c v :
  cache_find k c = Some v → length (cache_remove k c) < length c.
Proof.
  unfold cache_remove. induction c as [|[k' v'] c IH]; simpl; [done|].
  rewrite filter_cons. simpl. destruct (decide (k' = k)) as [->|Hne].
  - intros _. rewrite decide_False by (by intros ?).
    pose proof (length_filter (λ kv : K * V, kv.1 ≠ k) c). lia.
  - intros Hf. rewrite decide_True by done. simpl. apply IH in Hf. lia.
Qed.

(** The cache never grows beyond its capacity. *)
Lemma cache_use_length n k v c :
  length c ≤ n → length (cache_use n k v c) ≤ n.
Proof.
  intros Hc. unfold cache_use, cache_touch, cache_store.
  destruct (cache_find k c) as [v'|] eqn:Hf.
  - apply cache_remove_length in Hf. simpl. lia.
  - rewrite length_take. lia.
Qed.

Lemma remove_dups_snoc (ks : list K) k :
  remove_dups (ks ++ [k]) = filter (λ k', k' ≠ k) (remove_dups ks) ++ [k].
Proof.
  induction ks as [|x ks IH]; [done|].
  change ((x :: ks) ++ [k]) with (x :: (ks ++ [k])).
  cbn [remove_dups]. rewrite IH.
  destruct (decide_rel (∈) x (ks ++ [k])) as [H1|H1],
    (decide_rel (∈) x ks) as [H2|H2]; try done.
  - apply elem_of_app in H1 as [?|H1]; [done|].
    apply list_elem_of_singleton in H1 as ->.
    by rewrite filter_cons, decide_False by (by intros ?).
  - exfalso. apply H1, elem_of_app. by left.
  - rewrite filter_cons, decide_True; [done|].
    intros ->. apply H1, elem_of_app. right. by apply list_elem_of_singleton.
Qed.

Lemma filter_absent k (l : list K) : k ∉ l → filter (λ k', k' ≠ k) l = l.
Proof.
  induction l as [|x l IH]; [done|].
  intros [Hne Hl]%not_elem_of_cons.
  by rewrite filter_cons, decide_True, IH by done.
Qed.

Lemma take_filter_miss n k (l : list K) :
  k ∉ take (S n) l → take n (filter (λ k', k' ≠ k) l) = take n l.
Proof.
  revert n. induction l as [|x l IH]; intros n Hk; [done|].
  destruct n as [|n]; [done|].
  cbn [take] in Hk. apply not_elem_of_cons in Hk as [Hne Hk].
  rewrite filter_cons, decide_True by done. cbn [take]. by rewrite IH.
Qed.

Lemma take_filter_hit n k (l : list K) :
  NoDup l → k ∈ take (S n) l →
  take n (filter (λ k', k' ≠ k) l) = filter (λ k', k' ≠ k) (take (S n) l).
Proof.
  intros Hl. revert n. induction Hl as [|x l Hx Hl IH]; intros n Hk.
  { cbn in Hk. by apply elem_of_nil in Hk. }
  cbn [take] in *. rewrite !filter_cons.
  destruct (decide (x = k)) as [->|Hne].
  - rewrite !decide_False by (by intros ?).
    rewrite !filter_absent; [done| |done].
    intros Hin. apply Hx. by eapply subseteq_take.
  - rewrite !decide_True by done.
    apply elem_of_cons in Hk as [->|Hk]; [done|].
    destruct n as [|n]; [by apply elem_of_nil in Hk|].
    cbn [take]. by rewrite IH.
Qed.

(** Least recently used: after any sequence of successful calls the cache
    holds the keys used most recently, each once, latest first, up to the
    capacity. *)
Lemma cache_use_keys n (f : K → V) (ks : list K) :
  (foldl (λ c k, cache_use (S n) k (f k) c) [] ks).*1 =
  take (S n) (reverse (remove_dups ks)).
Proof.
  induction ks as [|k ks IH] using rev_ind; [done|].
  rewrite foldl_app. cbn [foldl].
  set (c := foldl (λ c k, cache_use (S n) k (f k) c) [] ks) in *.
  rewrite remove_dups_snoc, reverse_app. cbn [reverse app].
  rewrite reverse_singleton. cbn [app take].
  assert (Hrev : reverse (filter (λ k', k' ≠ k) (remove_dups ks)) =
                 filter (λ k', k' ≠ k) (reverse (remove_dups ks))).
  { by rewrite filter_reverse. }
  rewrite Hrev. set (D := reverse (remove_dups ks)) in *.
  assert (HD : NoDup D).
  { unfold D. rewrite reverse_Permutation. apply NoDup_remove_dups. }
  unfold cache_use. destruct (cache_find k c) as [v|] eqn:Hf.
  - apply cache_find_Some in Hf. rewrite IH in Hf.
    unfold cache_touch. rewrite fmap_cons, cache_remove_keys, IH. simpl.
    f_equal. symmetry. by apply take_filter_hit.
  - apply cache_find_None in Hf. rewrite IH in Hf.
    unfold cache_store. cbn [take]. rewrite fmap_cons, fmap_take, IH. simpl.
    f_equal. rewrite take_take, Nat.min_l by lia.
    symmetry. by apply take_filter_miss.
Qed.

End Lru.

Section Handlers.

Context {Engine Wave MorphingParameter Upload : Type}.
Context `{EqDecision Engine}.
Context (app : @App Engine Wave MorphingParameter Upload).

#[local] Abbreviation env := (collaborators app).

Implicit Types (w : @World Engine Wave MorphingParameter Upload).

#[local] Abbreviation MM A := (@M Engine Wave MorphingParameter Upload A).

Lemma logged_logged w cs ds : logged (logged w cs) ds = logged w (cs ++ ds).
Proof. unfold logged. simpl. by rewrite (assoc_L (++)). Qed.

Lemma bind_returned {A B} (m : MM A) (k : A → MM B) w a w' :
  m w = (Returned a, w') → bind m k w = k a w'.
Proof. unfold bind. by intros ->. Qed.

Lemma bind_raised {A B} (m : MM A) (k : A → MM B) w e w' :
  m w = (Raised e, w') → bind m k w = (Raised e, w').
Proof. unfold bind. by intros ->. Qed.

(** *** [get_engine] *)

Lemma get_engine_resolved v engine w :
  engine_for app v = Some engine →
  get_engine app v w = (Returned engine, w).
Proof. unfold engine_for, get_engine. destruct v; by intros ->. Qed.

Lemma get_engine_unknown v w :
  synthesis_engines app !! v = None →
  get_engine app (Some v) w = (Raised (HTTPException 422 unknown_version), w).
Proof. unfold get_engine. by intros ->. Qed.

(** *** The cache stays within its capacity *)

Lemma keeps_ret {A} (a : A) : keeps (ret a : MM A).
Proof. by intros w. Qed.

Lemma keeps_raise {A} e : keeps (raise e : MM A).
Proof. by intros w. Qed.

Lemma keeps_call {A} c (r : outcome A) : keeps (call c r : MM A).
Proof. by intros w. Qed.

Lemma keeps_bind {A B} (m : MM A) (k : A → MM B) :
  keeps m → (∀ a, keeps (k a)) → keeps (bind m k).
Proof.
  intros Hm Hk w Hw. unfold bind. specialize (Hm w Hw).
  destruct (m w) as [[a|e] w']; [by apply Hk|done].
Qed.

Lemma keeps_try {A} (m : MM A) handler :
  keeps m → (∀ e h, handler e = Some h → keeps h) →
  keeps (try_except m handler).
Proof.
  intros Hm Hh w Hw. unfold try_except. specialize (Hm w Hw).
  destruct (m w) as [[a|e] w']; [done|].
  destruct (handler e) as [h|] eqn:E; [by eapply Hh|done].
Qed.

Lemma keeps_named_temporary_file : keeps (named_temporary_file env).
Proof. by intros w. Qed.

Lemma keeps_temporary_file : keeps (temporary_file app).
Proof. by intros w. Qed.

Lemma keeps_get_engine v : keeps (get_engine app v).
Proof. unfold get_engine. repeat case_match; by intros w. Qed.

Lemma keeps_morphing_parameter engine query base target :
  keeps (synthesis_morphing_parameter app engine query base target).
Proof.
  intros w Hw. unfold synthesis_morphing_parameter, bounded in *.
  destruct (cache_find _ _) as [p|] eqn:Hf; simpl.
  - etrans; [exact (cache_remove_length _ _ _ Hf)|exact Hw].
  - destruct (Collaborator._synthesis_morphing_parameter _ _ _ _ _); simpl; [|done].
    unfold cache_store. rewrite length_take. unfold maxsize. lia.
Qed.

Lemma keeps_forced_alignment {A} stop e (h : MM A) :
  forced_alignment_clauses stop e = Some h → keeps h.
Proof.
  unfold forced_alignment_clauses.
  repeat case_match; intros [= <-]; apply keeps_raise.
Qed.

Ltac keeps_step :=
  first
    [ apply keeps_ret | apply keeps_raise | apply keeps_call
    | apply keeps_named_temporary_file | apply keeps_temporary_file
    | apply keeps_get_engine | apply keeps_morphing_parameter
    | apply keeps_bind; [|intros ?]
    | apply keeps_try; [|intros ? ?] ].

Ltac keeps_clause :=
  let H := fresh in
  intros H;
  repeat case_match; simplify_eq;
  first [ apply keeps_raise | apply keeps_ret
        | eapply keeps_forced_alignment; eassumption ].

Lemma keeps_parse_kana_or_400 text : keeps (parse_kana_or_400 app text).
Proof.
  unfold parse_kana_or_400. repeat keeps_step. keeps_clause.
Qed.

Lemma keeps_multi_synthesis_loop engine speaker rate archive i queries :
  keeps (multi_synthesis_loop app engine speaker rate archive i queries).
Proof.
  revert i. induction queries as [|q queries IH]; intros i; simpl.
  - apply keeps_ret.
  - case_match; [apply keeps_raise|]. unfold write_wav.
    repeat keeps_step. apply IH.
Qed.

Lemma keeps_handle r : keeps (handle app r).
Proof.
  destruct r; simpl;
    unfold answer, audio_query, audio_query_from_preset,
      accent_phrases, guided_accent_phrase, mora_data, mora_length,
      mora_pitch, synthesis, cancellable_synthesis, multi_synthesis,
      _synthesis_morphing, guided_synthesis, speakers,
      speaker_info, supported_devices, connect_waves, write_wav;
    repeat first
      [ keeps_step
      | apply keeps_parse_kana_or_400
      | apply keeps_multi_synthesis_loop
      | progress case_match ];
    keeps_clause.
Qed.

Lemma serve_bounded rs w : bounded w → bounded (serve app rs w).
Proof.
  revert w. induction rs as [|r rs IH]; intros w Hw; [done|].
  simpl. apply IH. by apply keeps_handle.
Qed.

(** *** The properties of the handlers *)

(** C6, amended (HTTP mapping of parse failures): in the [accent_phrases]
    handler with [is_kana] true, when [core_version] is absent or names a
    known engine, a text on which [parse_kana] raises [ParseKanaError] makes
    the handler raise [HTTPException] with status 400 whose detail is the
    [ParseKanaBadRequest] built from that error, with its message and
    position; on a text that parses, the phrases are passed to
    [replace_mora_data] and the handler gives what that call gives. *)
Theorem accent_phrases_parse_failure_is_400 text speaker v engine w :
  engine_for app v = Some engine →
  (∀ err, Collaborator.parse_kana env text = Raised (ParseKanaErr err) →
     accent_phrases app text speaker true v w =
       (Raised (HTTPException 400 (DetailParseKana (ParseKanaBadRequest.make err))),
        logged w [CallParseKana text]) ∧
     ParseKanaBadRequest.message (ParseKanaBadRequest.make err) =
       message err ∧
     ParseKanaBadRequest.position (ParseKanaBadRequest.make err) =
       position err) ∧
  (∀ ps, Collaborator.parse_kana env text = Returned ps →
     accent_phrases app text speaker true v w =
       (Collaborator.replace_mora_data env engine ps speaker,
        logged w [CallParseKana text;
                  CallReplaceMoraData engine ps speaker])).
Proof.
  intros Hv. unfold accent_phrases.
  rewrite (bind_returned _ _ _ _ _ (get_engine_resolved _ _ w Hv)).
  split.
  - intros err Herr. split; [|by destruct err].
    unfold bind, parse_kana_or_400, try_except, call. by rewrite Herr.
  - intros ps Hps.
    unfold bind, parse_kana_or_400, try_except, call. rewrite Hps.
    by rewrite logged_logged.
Qed.

(** C7 (serializer output embedded verbatim): in every query that
    [audio_query] or [audio_query_from_preset] returns, the [kana] field is
    [create_kana] of the accent phrases stored in that query. *)
Theorem audio_query_kana_is_create_kana :
  (∀ text speaker v w q w',
     audio_query app text speaker v w = (Returned q, w') →
     kana q = Some (Collaborator.create_kana env (Model.accent_phrases q))) ∧
  (∀ text preset_id v w q w',
     audio_query_from_preset app text preset_id v w = (Returned q, w') →
     kana q = Some (Collaborator.create_kana env (Model.accent_phrases q))).
Proof.
  split.
  - intros text speaker v w q w'. unfold audio_query, bind, call, ret.
    destruct (get_engine app v w) as [[engine|e] w1]; [|done].
    destruct (Collaborator.create_accent_phrases env engine text speaker); [|done].
    by intros [= <- _].
  - intros text preset_id v w q w'.
    unfold audio_query_from_preset, bind, call, ret, raise.
    destruct (get_engine app v w) as [[engine|e] w1]; [|done].
    destruct (Collaborator.load_presets env) as [[presets err_detail]|e]; [|done].
    cbn [fst snd]. destruct (negb (String.eqb err_detail "")); [done|].
    destruct (List.find _ presets) as [selected|]; [|done].
    destruct (Collaborator.create_accent_phrases env engine text (Preset.style_id selected));
      [|done].
    by intros [= <- _].
Qed.

(** C8 (bounded morphing-parameter cache): the cache that [generate_app]
    puts around the imported [_synthesis_morphing_parameter] never holds
    more than 4 entries, whatever requests the app serves; it is keyed by
    the four call arguments: a call whose key is stored returns the stored
    value without calling the wrapped function, and any other call invokes
    the wrapped function with these arguments; a successful call updates
    the cache as [cache_use], and a sequence of such updates leaves the
    at most 4 most recently used keys, latest first. *)
Theorem morphing_cache_bounded :
  (∀ rs, length (morph_cache (serve app rs initial_world)) ≤ 4) ∧
  (∀ engine query base target w,
     let key := (engine, query, base, target) in
     let r := synthesis_morphing_parameter app engine query base target w in
     match cache_find key (morph_cache w) with
     | Some p => r.1 = Returned p ∧ calls r.2 = calls w
     | None =>
         r.1 = Collaborator._synthesis_morphing_parameter env engine query base target ∧
         calls r.2 = calls w ++ [CallMorphingParameter key]
     end ∧
     morph_cache r.2 =
       match r.1 with
       | Returned p => cache_use maxsize key p (morph_cache w)
       | Raised _ => morph_cache w
       end) ∧
  (∀ (f : @MorphKey Engine → MorphingParameter) (ks : list (@MorphKey Engine)),
     (foldl (λ c k, cache_use maxsize k (f k) c) [] ks).*1 =
     take 4 (reverse (remove_dups ks))).
Proof.
  split; [|split].
  - intros rs. by apply (serve_bounded rs initial_world), Nat.le_0_l.
  - intros engine query base target w. cbv zeta.
    unfold synthesis_morphing_parameter, cache_use.
    destruct (cache_find _ _) as [p|] eqn:Hf; cbn [fst snd morph_cache calls].
    + done.
    + by destruct (Collaborator._synthesis_morphing_parameter _ _ _ _ _) as [p|e].
  - intros f ks. apply (cache_use_keys 3).
Qed.

(** C9, amended (core-version dispatch): [get_engine] returns the engine
    of [latest_core_version] when [core_version] is [None], the engine of
    [core_version] when it is a key of [synthesis_engines], and raises
    [HTTPException] with status 422 otherwise.  An endpoint that takes
    [core_version] and is not behind a switch rejects an unknown version
    with 422 before any call to a collaborator; the two guided endpoints do
    so when guided synthesis is enabled and raise 404 when it is not;
    [cancellable_synthesis] raises 404 when cancellable synthesis is not
    enabled. *)
Theorem core_version_dispatch :
  (∀ collab arguments engines latest
     (app' : @App Engine Wave MorphingParameter Upload) w,
     generate_app collab arguments engines latest = Returned app' →
     ∃ engine, engines !! latest = Some engine ∧
               get_engine app' None w = (Returned engine, w)) ∧
  (∀ v engine w, synthesis_engines app !! v = Some engine →
     get_engine app (Some v) w = (Returned engine, w)) ∧
  (∀ v w, synthesis_engines app !! v = None →
     get_engine app (Some v) w =
       (Raised (HTTPException 422 unknown_version), w)) ∧
  (∀ r v w, core_version_of r = Some (Some v) →
     synthesis_engines app !! v = None →
     match guard_of r with
     | Unguarded =>
         handle app r w = (Raised (HTTPException 422 unknown_version), w)
     | GuidedGuard =>
         handle app r w =
           if enable_guided_synthesis (args app)
           then (Raised (HTTPException 422 unknown_version), w)
           else (Raised (HTTPException 404 experimental_disabled), w)
     | CancellableGuard =>
         enable_cancellable_synthesis (args app) = false →
         handle app r w =
           (Raised (HTTPException 404 experimental_disabled), w)
     end).
Proof.
  split; [|split; [|split]].
  - intros collab arguments engines latest app' w. unfold generate_app.
    destruct (engines !! latest) as [engine|] eqn:E; [|done].
    intros [= <-]. exists engine. split; [done|].
    unfold get_engine. cbn. by rewrite E.
  - intros v engine w Hv. by apply (get_engine_resolved (Some v)).
  - apply get_engine_unknown.
  - intros r v w Hr Hv.
    pose proof (get_engine_unknown v w Hv) as Hg.
    destruct r; cbn in Hr; simplify_eq; cbn [guard_of handle];
      unfold answer, audio_query, audio_query_from_preset,
        accent_phrases, guided_accent_phrase, mora_data, mora_length,
        mora_pitch, synthesis, cancellable_synthesis, multi_synthesis,
        _synthesis_morphing, guided_synthesis, speakers,
        speaker_info, supported_devices;
      try (destruct (enable_guided_synthesis (args app)); cbn [negb]);
      try (intros ->; cbn [negb]);
      try (by rewrite ?(bind_raised _ _ _ _ _ (bind_raised _ _ _ _ _ Hg)),
                      ?(bind_raised _ _ _ _ _ Hg)).
Qed.

(** C10 (error path of [connect_waves]): when [connect_base64_waves] raises
    [ConnectBase64WavesException], the handler returns the
    [HTTPException] with status 422 as its response value and writes no WAV
    file; whenever [connect_base64_waves] raises, nothing is written and no
    [FileResponse] is returned; when it succeeds, the handler writes the
    connected wave to a new temporary file and returns a [FileResponse]
    for it. *)
Theorem connect_waves_returns_exception waves w :
  (∀ msg,
     Collaborator.connect_base64_waves env waves =
       Raised (ConnectBase64WavesException msg) →
     connect_waves app waves w =
       (Returned (ReturnedException (HTTPException 422 (DetailStr msg))),
        logged w [CallConnectBase64Waves waves])) ∧
  (∀ e, Collaborator.connect_base64_waves env waves = Raised e →
     (connect_waves app waves w).2 = logged w [CallConnectBase64Waves waves] ∧
     ∀ path media_type,
       (connect_waves app waves w).1 ≠
         Returned (FileResponse path media_type)) ∧
  (∀ data rate, Collaborator.connect_base64_waves env waves = Returned (data, rate) →
     let f := Collaborator.temporary_name env (temporaries w) in
     connect_waves app waves w =
       (match Collaborator.soundfile_write env f data rate with
        | Returned _ => Returned (FileResponse f "audio/wav")
        | Raised e => Raised e
        end,
        {| morph_cache := morph_cache w;
           calls := calls w ++ [CallConnectBase64Waves waves;
                                CallNamedTemporaryFile f;
                                CallSoundfileWrite f data rate];
           temporaries := S (temporaries w) |})).
Proof.
  unfold connect_waves, bind, try_except, call, ret, write_wav,
    named_temporary_file, wav_response.
  split; [|split].
  - by intros msg ->.
  - intros e ->. by destruct e.
  - intros data rate ->. cbn.
    destruct (Collaborator.soundfile_write _ _ _ _); unfold logged; cbn;
      by rewrite <- !(assoc_L (++)).
Qed.

End Handlers.

(** C6, as stated, fails: on a text that does not parse, with an unknown
    [core_version], the [accent_phrases] handler raises 422 before it
    parses, not 400. *)
Lemma accent_phrases_unknown_version_is_422 :
  ∃ err,
    Collaborator.parse_kana Sample.env Sample.duplicate_accent = Raised (ParseKanaErr err) ∧
    accent_phrases Sample.app Sample.duplicate_accent 0 true
      (Some "0.0.0") Sample.world =
      (Raised (HTTPException 422 unknown_version), Sample.world) ∧
    (accent_phrases Sample.app Sample.duplicate_accent 0 true
       (Some "0.0.0") Sample.world).1 ≠
      Raised (HTTPException 400 (DetailParseKana (ParseKanaBadRequest.make err))).
Proof. eexists. split; [by vm_compute|]. split; by vm_compute. Qed.

Lemma accent_phrases_parse_failure_is_400_witness :
  accent_phrases Sample.app Sample.duplicate_accent 0 true None
    Sample.world =
  (Raised (HTTPException 400 (DetailParseKana
     {| ParseKanaBadRequest.message := "more than one accent mark";
        ParseKanaBadRequest.error_name := MultipleAccentMarks;
        ParseKanaBadRequest.position := 3 |})),
   logged Sample.world [CallParseKana Sample.duplicate_accent]).
Proof.
  assert (Hv : engine_for Sample.app None = Some 0) by reflexivity.
  apply (proj1 (accent_phrases_parse_failure_is_400 Sample.app
                  Sample.duplicate_accent 0%Z None 0 Sample.world Hv)
           {| message := "more than one accent mark";
              error_name := MultipleAccentMarks; position := 3 |}).
  by vm_compute.
Defined.

Lemma audio_query_kana_is_create_kana_witness :
  (audio_query Sample.app [Sample.KA] 0 None Sample.world =
     (Returned Sample.query,
      logged Sample.world [CallCreateAccentPhrases 0 [Sample.KA] 0%Z]) ∧
   kana Sample.query =
     Some (Collaborator.create_kana Sample.env
            (Model.accent_phrases Sample.query))) ∧
  (audio_query_from_preset Sample.app [Sample.KA] 1 None Sample.world =
     (Returned Sample.query,
      logged Sample.world
        [CallLoadPresets; CallCreateAccentPhrases 0 [Sample.KA] 3%Z]) ∧
   kana Sample.query =
     Some (Collaborator.create_kana Sample.env
            (Model.accent_phrases Sample.query))).
Proof.
  assert (H1 : audio_query Sample.app [Sample.KA] 0 None Sample.world =
    (Returned Sample.query,
     logged Sample.world [CallCreateAccentPhrases 0 [Sample.KA] 0%Z]))
    by (vm_compute; reflexivity).
  assert (H2 : audio_query_from_preset Sample.app [Sample.KA] 1 None
                 Sample.world =
    (Returned Sample.query,
     logged Sample.world
       [CallLoadPresets; CallCreateAccentPhrases 0 [Sample.KA] 3%Z]))
    by (vm_compute; reflexivity).
  split; (split; [done|]).
  - exact (proj1 (audio_query_kana_is_create_kana Sample.app) _ _ _ _ _ _ H1).
  - exact (proj2 (audio_query_kana_is_create_kana Sample.app) _ _ _ _ _ _ H2).
Defined.

(** C9, as stated, fails: with guided synthesis disabled, as by default,
    [guided_accent_phrase] answers a request with an unknown version with
    404, not 422. *)
Lemma guided_endpoint_unknown_version_is_404 :
  let r := GuidedAccentPhraseRequest [] 0 false tt false (Some "0.0.0") in
  core_version_of r = Some (Some "0.0.0") ∧
  synthesis_engines Sample.app !! "0.0.0" = None ∧
  handle Sample.app r Sample.world =
    (Raised (HTTPException 404 experimental_disabled), Sample.world) ∧
  (handle Sample.app r Sample.world).1 ≠
    Raised (HTTPException 422 unknown_version).
Proof. cbv zeta. split_and!; by vm_compute. Qed.

Lemma core_version_dispatch_witness :
  get_engine Sample.app (Some "0.14.0") Sample.world =
    (Returned 0, Sample.world) ∧
  handle Sample.app (MoraDataRequest [] 0 (Some "0.0.0")) Sample.world =
    (Raised (HTTPException 422 unknown_version), Sample.world).
Proof.
  destruct (core_version_dispatch Sample.app) as (_ & Hknown & _ & Hreject).
  split.
  - by apply Hknown.
  - by apply (Hreject (MoraDataRequest [] 0 (Some "0.0.0")) "0.0.0").
Defined.

Lemma connect_waves_returns_exception_witness :
  connect_waves Sample.app [] Sample.world =
  (Returned (ReturnedException
     (HTTPException 422 (DetailStr "no wave to connect"))),
   logged Sample.world [CallConnectBase64Waves []]).
Proof.
  by apply (proj1 (connect_waves_returns_exception Sample.app []
                     Sample.world)).
Defined.

End HttpFacts.

(** * Facts about the remaining endpoints *)

Module EndpointFacts.
Import Http Endpoints HttpFacts.

Section Handlers.

Context {Engine Wave MorphingParameter Upload : Type}.
Context `{EqDecision Engine}.
Context (app : @App Engine Wave MorphingParameter Upload).

#[local] Abbreviation env := (collaborators app).

Implicit Types (w : @World Engine Wave MorphingParameter Upload).

#[local] Abbreviation MM A := (@M Engine Wave MorphingParameter Upload A).


Lemma find_none {A} (f : A → bool) (l : list A) :
  Forall (λ y, f y = false) l → List.find f l = None.
Proof. induction 1 as [|y l Hy _ IH]; cbn; [done|by rewrite Hy]. Qed.

(** X1 (sampling rate of a new query): in an app built by [generate_app],
    every query that [audio_query] or [audio_query_from_preset] returns has
    the default sampling rate of the engine of the latest core version as
    its [outputSamplingRate], whichever engine [core_version] selects, and
    is not stereo. *)
Theorem query_sampling_rate_is_latest collab arguments engines latest
    (app' : @App Engine Wave MorphingParameter Upload) :
  generate_app collab arguments engines latest = Returned app' →
  ∃ engine,
    engines !! latest = Some engine ∧
    (∀ text speaker v w q w',
       audio_query app' text speaker v w = (Returned q, w') →
       outputSamplingRate q =
         Collaborator.default_sampling_rate collab engine ∧
       outputStereo q = false) ∧
    (∀ text preset_id v w q w',
       audio_query_from_preset app' text preset_id v w = (Returned q, w') →
       outputSamplingRate q =
         Collaborator.default_sampling_rate collab engine ∧
       outputStereo q = false).
Proof.
  unfold generate_app.
  destruct (engines !! latest) as [engine|] eqn:E; [|done].
  intros [= <-]. exists engine. split; [done|]. split.
  - intros text speaker v w q w'. unfold audio_query, bind, call, ret.
    destruct (get_engine _ v w) as [[e|?] w1]; [|done].
    cbn [collaborators].
    destruct (Collaborator.create_accent_phrases collab e text speaker);
      [|done].
    by intros [= <- _].
  - intros text preset_id v w q w'.
    unfold audio_query_from_preset, bind, call, ret, raise.
    destruct (get_engine _ v w) as [[e|?] w1]; [|done].
    cbn [collaborators].
    destruct (Collaborator.load_presets collab) as [[presets err]|?]; [|done].
    cbn [fst snd]. destruct (negb (String.eqb err "")); [done|].
    destruct (List.find _ presets) as [selected|]; [|done].
    destruct (Collaborator.create_accent_phrases collab e text _); [|done].
    by intros [= <- _].
Qed.


(** X3 (preset errors): [get_presets] and [audio_query_from_preset] both
    load the presets once.  A non-empty error detail makes both raise
    [HTTPException] with status 422 and that detail, also when the list
    holds the requested preset; without one, [get_presets] returns the
    list, and [audio_query_from_preset] raises 422 when no preset has the
    requested [id].  In no failing case is the engine asked for accent
    phrases. *)
Theorem preset_errors text preset_id v engine presets err_detail w :
  engine_for app v = Some engine →
  Collaborator.load_presets env = Returned (presets, err_detail) →
  (err_detail ≠ "" →
   get_presets app w =
     (Raised (HTTPException 422 (DetailStr err_detail)),
      logged w [CallLoadPresets]) ∧
   audio_query_from_preset app text preset_id v w =
     (Raised (HTTPException 422 (DetailStr err_detail)),
      logged w [CallLoadPresets])) ∧
  (err_detail = "" →
   get_presets app w = (Returned presets, logged w [CallLoadPresets]) ∧
   (Forall (λ preset, Preset.id preset ≠ preset_id) presets →
    audio_query_from_preset app text preset_id v w =
      (Raised (HTTPException 422 preset_not_found),
       logged w [CallLoadPresets]))).
Proof.
  intros Hv Hload.
  unfold audio_query_from_preset, get_presets.
  rewrite (bind_returned _ _ _ _ _ (get_engine_resolved app _ _ w Hv)).
  unfold bind, call, ret, raise. rewrite Hload. cbn [fst snd]. split.
  - intros Herr. apply String.eqb_neq in Herr. by rewrite Herr.
  - intros ->. cbn [String.eqb negb]. split; [done|].
    intros Hnone. rewrite find_none; [done|].
    eapply Forall_impl; [exact Hnone|]. intros p Hp. by apply Z.eqb_neq.
Qed.

(** X4 (switched-off features): while guided synthesis is not enabled, the
    two guided endpoints answer every request with status 404, and so does
    [cancellable_synthesis] while cancellable synthesis is not enabled;
    the request reaches no collaborator, whatever its [core_version]. *)
Theorem disabled_feature_is_404 r w :
  match guard_of r with
  | Unguarded => True
  | GuidedGuard =>
      enable_guided_synthesis (args app) = false →
      handle app r w = (Raised (HTTPException 404 experimental_disabled), w)
  | CancellableGuard =>
      enable_cancellable_synthesis (args app) = false →
      handle app r w = (Raised (HTTPException 404 experimental_disabled), w)
  end.
Proof.
  destruct r; cbn [guard_of handle]; try done; intros Hoff;
    unfold answer, guided_accent_phrase, guided_synthesis,
      cancellable_synthesis; rewrite Hoff; cbn [negb]; done.
Qed.




(** *** The cache is touched by [_synthesis_morphing] alone *)

Lemma spares_ret {A} (a : A) : spares (ret a : MM A).
Proof. by intros w. Qed.

Lemma spares_raise {A} e : spares (raise e : MM A).
Proof. by intros w. Qed.

Lemma spares_call {A} c (r : outcome A) : spares (call c r : MM A).
Proof. by intros w. Qed.

Lemma spares_bind {A B} (m : MM A) (k : A → MM B) :
  spares m → (∀ a, spares (k a)) → spares (bind m k).
Proof.
  intros Hm Hk w. unfold bind. specialize (Hm w).
  destruct (m w) as [[a|e] w']; [|done].
  cbn [snd] in Hm. by rewrite Hk.
Qed.

Lemma spares_try {A} (m : MM A) handler :
  spares m → (∀ e h, handler e = Some h → spares h) →
  spares (try_except m handler).
Proof.
  intros Hm Hh w. unfold try_except. specialize (Hm w).
  destruct (m w) as [[a|e] w']; [done|]. cbn [snd] in Hm.
  destruct (handler e) as [h|] eqn:E; [|done].
  by rewrite (Hh _ _ E).
Qed.

Lemma spares_named_temporary_file : spares (named_temporary_file env).
Proof. by intros w. Qed.

Lemma spares_temporary_file : spares (temporary_file app).
Proof. by intros w. Qed.

Lemma spares_get_engine v : spares (get_engine app v).
Proof. unfold get_engine. repeat case_match; by intros w. Qed.

Lemma spares_forced_alignment {A} stop e (h : MM A) :
  forced_alignment_clauses stop e = Some h → spares h.
Proof.
  unfold forced_alignment_clauses.
  repeat case_match; intros [= <-]; apply spares_raise.
Qed.

Ltac spares_step :=
  first
    [ apply spares_ret | apply spares_raise | apply spares_call
    | apply spares_named_temporary_file | apply spares_temporary_file
    | apply spares_get_engine
    | apply spares_bind; [|intros ?]
    | apply spares_try; [|intros ? ?] ].

Ltac spares_clause :=
  let H := fresh in
  intros H;
  repeat case_match; simplify_eq;
  first [ apply spares_raise | apply spares_ret
        | eapply spares_forced_alignment; eassumption ].

Lemma spares_parse_kana_or_400 text : spares (parse_kana_or_400 app text).
Proof.
  unfold parse_kana_or_400. repeat spares_step. spares_clause.
Qed.

Lemma spares_multi_synthesis_loop engine speaker rate archive i queries :
  spares (multi_synthesis_loop app engine speaker rate archive i queries).
Proof.
  revert i. induction queries as [|q queries IH]; intros i; simpl.
  - apply spares_ret.
  - case_match; [apply spares_raise|]. unfold write_wav.
    repeat spares_step. apply IH.
Qed.

Lemma spares_handle r : morphs r = false → spares (handle app r).
Proof.
  destruct r; [..|done| | | | |]; intros _; simpl;
    unfold answer, audio_query, audio_query_from_preset,
      accent_phrases, guided_accent_phrase, mora_data, mora_length,
      mora_pitch, synthesis, cancellable_synthesis, multi_synthesis,
      guided_synthesis, speakers,
      speaker_info, supported_devices, connect_waves, write_wav;
    repeat first
      [ spares_step
      | apply spares_parse_kana_or_400
      | apply spares_multi_synthesis_loop
      | progress case_match ];
    spares_clause.
Qed.

Lemma serve_spares rs w :
  Forall (λ r, morphs r = false) rs →
  morph_cache (serve app rs w) = morph_cache w.
Proof.
  intros Hrs. revert w.
  induction Hrs as [|r rs Hr _ IH]; intros w; [done|].
  cbn [serve foldl]. fold (serve app rs (handle app r w).2).
  rewrite IH. by apply spares_handle.
Qed.

(** X7 (who changes the cache): a request to any endpoint other than
    [_synthesis_morphing] leaves the cache of morphing parameters exactly
    as it was, entries and order, and so does serving any number of such
    requests. *)
Theorem only_morphing_changes_cache rs w :
  Forall (λ r, morphs r = false) rs →
  Forall (λ r, ∀ w', morph_cache (handle app r w').2 = morph_cache w') rs ∧
  morph_cache (serve app rs w) = morph_cache w.
Proof.
  intros Hrs. split; [|by apply serve_spares].
  eapply Forall_impl; [exact Hrs|]. intros r Hr w'. by apply spares_handle.
Qed.

(** *** The cache is reused *)

Lemma cache_find_touch {K V} `{EqDecision K} (k : K) (v : V) c :
  cache_find k (cache_touch k v c) = Some v.
Proof. unfold cache_touch. cbn. by rewrite decide_True. Qed.

Lemma cache_find_store {K V} `{EqDecision K} n (k : K) (v : V) c :
  cache_find k (cache_store (S n) k v c) = Some v.
Proof. unfold cache_store. cbn. by rewrite decide_True. Qed.

(** What [_synthesis_morphing] does once the parameter is at hand. *)
Lemma morphing_tail_calls query morph_param morph_rate w :
  let r :=
    bind (call (CallSynthesisMorphing morph_param morph_rate
                  (outputStereo query))
            (Collaborator.synthesis_morphing env morph_param morph_rate
               (outputStereo query)))
      (λ morph_wave,
         bind (named_temporary_file env)
           (λ f, bind (write_wav app f morph_wave
                         (Collaborator.fs env morph_param))
                   (λ _, ret (wav_response f)))) w in
  morph_cache r.2 = morph_cache w ∧
  ∃ cs, calls r.2 = calls w ++ cs ∧
        Forall (λ c, computes_parameter c = false) cs.
Proof.
  cbv zeta. unfold write_wav, bind, call, ret, named_temporary_file.
  destruct (Collaborator.synthesis_morphing _ _ _ _) as [wave|e];
    cbn [fst snd logged morph_cache calls].
  - destruct (Collaborator.soundfile_write _ _ _ _);
      cbn [fst snd logged morph_cache calls]; (split; [done|]);
      rewrite <- !(assoc_L (++)); eexists; (split; [done|]);
      by repeat constructor.
  - split; [done|]. eexists. split; [done|]. by repeat constructor.
Qed.

#[local] Abbreviation morph_key engine query base_speaker target_speaker :=
  ((engine, query, base_speaker, target_speaker) : @MorphKey Engine).

(** What [synthesis_morphing_parameter] gives on a hit, and that its key
    is stored once it has returned. *)
Lemma morphing_parameter_hit engine query base_speaker target_speaker p w :
  cache_find (morph_key engine query base_speaker target_speaker)
    (morph_cache w) =
    Some p →
  synthesis_morphing_parameter app engine query base_speaker target_speaker
    w =
    (Returned p,
     {| morph_cache :=
          cache_touch (morph_key engine query base_speaker target_speaker) p
            (morph_cache w);
        calls := calls w; temporaries := temporaries w |}).
Proof. unfold synthesis_morphing_parameter. cbv zeta. by intros ->. Qed.

Lemma morphing_parameter_stored engine query base_speaker target_speaker
    w p w' :
  synthesis_morphing_parameter app engine query base_speaker target_speaker
    w = (Returned p, w') →
  cache_find (morph_key engine query base_speaker target_speaker)
    (morph_cache w') = Some p.
Proof.
  unfold synthesis_morphing_parameter. cbv zeta.
  destruct (cache_find _ _) as [p'|] eqn:Hf.
  - intros [= <- <-]. cbn [morph_cache]. apply cache_find_touch.
  - destruct (Collaborator._synthesis_morphing_parameter _ _ _ _ _);
      intros [= <- <-]. cbn [morph_cache]. apply cache_find_store.
Qed.

(** X8 (reuse of the morphing parameter): once a request to
    [_synthesis_morphing] has obtained its parameter, from the cache or
    from a computation that succeeded, a later request with the same
    engine, query and pair of speakers, at any morphing rate, does not
    compute the parameter again, however the first request ended and
    whatever requests to other endpoints were served in between. *)
Theorem morphing_parameter_reused query base_speaker target_speaker
    rate1 rate2 v1 v2 engine rs w :
  let w1 := (_synthesis_morphing app query base_speaker target_speaker
               rate1 v1 w).2 in
  let w2 := serve app rs w1 in
  let w3 := (_synthesis_morphing app query base_speaker target_speaker
               rate2 v2 w2).2 in
  engine_for app v1 = Some engine →
  engine_for app v2 = Some engine →
  Forall (λ r, morphs r = false) rs →
  (is_Some (cache_find (morph_key engine query base_speaker target_speaker)
              (morph_cache w)) ∨
   ∃ p, Collaborator._synthesis_morphing_parameter env engine query
          base_speaker target_speaker = Returned p) →
  ∃ cs, calls w3 = calls w2 ++ cs ∧
        Forall (λ c, computes_parameter c = false) cs.
Proof.
  cbv zeta. intros Hv1 Hv2 Hrs Hfirst.
  assert (Hcached : is_Some
    (cache_find (morph_key engine query base_speaker target_speaker)
       (morph_cache (_synthesis_morphing app query base_speaker
                       target_speaker rate1 v1 w).2))).
  { unfold _synthesis_morphing.
    rewrite (bind_returned _ _ _ _ _ (get_engine_resolved app _ _ w Hv1)).
    unfold bind at 1.
    destruct (synthesis_morphing_parameter app engine query base_speaker
                target_speaker w) as [[p|e] w0] eqn:Hrun.
    - rewrite (proj1 (morphing_tail_calls query p rate1 _)).
      rewrite (morphing_parameter_stored _ _ _ _ _ _ _ Hrun). eauto.
    - exfalso. revert Hrun. unfold synthesis_morphing_parameter. cbv zeta.
      destruct Hfirst as [[p ->]|[p ->]]; [done|].
      by destruct (cache_find _ _). }
  rewrite <- (serve_spares rs _ Hrs) in Hcached.
  destruct Hcached as [p Hp].
  set (w2 := serve app rs _) in *.
  unfold _synthesis_morphing.
  rewrite (bind_returned _ _ _ _ _ (get_engine_resolved app _ _ w2 Hv2)).
  unfold bind at 1. rewrite (morphing_parameter_hit _ _ _ _ _ _ Hp).
  destruct (morphing_tail_calls query p rate2
              {| morph_cache :=
                   cache_touch
                     (morph_key engine query base_speaker target_speaker)
                     p (morph_cache w2);
                 calls := calls w2; temporaries := temporaries w2 |})
    as (_ & cs & Hcs & Hno).
  exists cs. split; [exact Hcs|exact Hno].
Qed.

(** X9 (failed computations are not cached): when the parameter of a
    request to [_synthesis_morphing] is not in the cache and its
    computation raises, the handler raises the same exception, leaves the
    cache as it was and creates no file, and a second identical request
    calls the computation again. *)
Theorem morphing_failure_not_cached query base_speaker target_speaker
    rate1 rate2 v1 v2 engine e w :
  let key : @MorphKey Engine :=
    (engine, query, base_speaker, target_speaker) in
  let w1 := {| morph_cache := morph_cache w;
               calls := calls w ++ [CallMorphingParameter key];
               temporaries := temporaries w |} in
  engine_for app v1 = Some engine →
  engine_for app v2 = Some engine →
  cache_find key (morph_cache w) = None →
  Collaborator._synthesis_morphing_parameter env engine query base_speaker
    target_speaker = Raised e →
  _synthesis_morphing app query base_speaker target_speaker rate1 v1 w =
    (Raised e, w1) ∧
  _synthesis_morphing app query base_speaker target_speaker rate2 v2 w1 =
    (Raised e,
     {| morph_cache := morph_cache w;
        calls := calls w ++ [CallMorphingParameter key;
                             CallMorphingParameter key];
        temporaries := temporaries w |}).
Proof.
  cbv zeta. intros Hv1 Hv2 Hmiss Hraise. unfold _synthesis_morphing.
  rewrite (bind_returned _ _ _ _ _ (get_engine_resolved app _ _ w Hv1)).
  rewrite (bind_returned _ _ _ _ _ (get_engine_resolved app _ _ _ Hv2)).
  unfold bind, synthesis_morphing_parameter. cbv zeta.
  cbn [morph_cache calls temporaries].
  rewrite Hmiss, Hraise. by rewrite <- (assoc_L (++)).
Qed.

(** *** [multi_synthesis] *)

(** One round of the loop on a query at the right rate whose synthesis and
    write succeed. *)
Lemma multi_synthesis_loop_round engine speaker rate archive query rest i w
    wave :
  let f := Collaborator.temporary_name env (temporaries w) in
  outputSamplingRate query = rate →
  Collaborator.synthesis env engine query speaker None = Returned wave →
  Collaborator.soundfile_write env f wave rate = Returned tt →
  multi_synthesis_loop app engine speaker rate archive i (query :: rest) w =
    multi_synthesis_loop app engine speaker rate archive (S i) rest
      {| morph_cache := morph_cache w;
         calls := calls w ++
                  [CallTemporaryFile f;
                   CallSynthesis engine query speaker None;
                   CallSoundfileWrite f wave rate;
                   CallZipWrite archive (Collaborator.zip_member env i) f];
         temporaries := S (temporaries w) |}.
Proof.
  cbv zeta. intros Hrate Hsynth Hwrite. cbn [multi_synthesis_loop].
  rewrite Hrate, Z.eqb_refl. cbn [negb].
  unfold write_wav, bind, temporary_file, call.
  rewrite Hsynth. cbn [temporaries logged calls morph_cache].
  rewrite Hwrite. rewrite !logged_logged. unfold logged.
  cbn [temporaries calls morph_cache]. by rewrite <- !(assoc_L (++)).
Qed.

(** The rounds of the loop on a prefix of such queries. *)
Lemma multi_synthesis_loop_prefix engine speaker rate archive pre rest :
  (∀ file data samplerate,
     Collaborator.soundfile_write env file data samplerate = Returned tt) →
  Forall (λ query,
            outputSamplingRate query = rate ∧
            ∃ wave, Collaborator.synthesis env engine query speaker None =
                      Returned wave) pre →
  ∀ i w, ∃ w1,
    multi_synthesis_loop app engine speaker rate archive i (pre ++ rest) w =
      multi_synthesis_loop app engine speaker rate archive (i + length pre)
        rest w1 ∧
    temporaries w1 = temporaries w + length pre ∧
    omap synthesized (calls w1) =
      omap synthesized (calls w) ++
      ((λ query, (engine, query, speaker, None)) <$> pre) ∧
    omap zipped (calls w1) =
      omap zipped (calls w) ++
      (Collaborator.zip_member env <$> seq i (length pre)).
Proof.
  intros Hwrite Hpre.
  induction Hpre as [|query pre (Hrate & wave & Hsynth) _ IH]; intros i w.
  - exists w. cbn [length Datatypes.app fmap list_fmap seq].
    by rewrite Nat.add_0_r, !(right_id_L [] (++)).
  - cbn [Datatypes.app].
    rewrite (multi_synthesis_loop_round _ _ _ _ _ _ _ _ wave);
      [|done|done|apply Hwrite].
    edestruct (IH (S i)) as (w1 & -> & Htemp & Hsyn & Hzip).
    exists w1. cbn [length]. rewrite Nat.add_succ_r. split; [done|].
    rewrite Htemp, Hsyn, Hzip. cbn [temporaries calls].
    rewrite !omap_app. cbn [omap list_omap synthesized zipped seq].
    rewrite !fmap_cons, <- !(assoc_L (++)). split; [lia|]. done.
Qed.


(** X11 (the rates are checked one query at a time): when a query differs
    in sampling rate from the first, [multi_synthesis] raises
    [HTTPException] with status 422 only on reaching it: the queries
    before it have been synthesized and written by then, and the archive
    and their temporary files have been created. *)
Theorem multi_synthesis_rejects_late first pre bad post speaker v engine w :
  let queries := first :: pre ++ bad :: post in
  engine_for app v = Some engine →
  (∀ file data samplerate,
     Collaborator.soundfile_write env file data samplerate = Returned tt) →
  Forall (λ query,
            outputSamplingRate query = outputSamplingRate first ∧
            ∃ wave, Collaborator.synthesis env engine query speaker None =
                      Returned wave) (first :: pre) →
  outputSamplingRate bad ≠ outputSamplingRate first →
  ∃ w',
    multi_synthesis app queries speaker v w =
      (Raised (HTTPException 422 sampling_rate_differs), w') ∧
    temporaries w' = temporaries w + 2 + length pre ∧
    omap synthesized (calls w') =
      omap synthesized (calls w) ++
      ((λ query, (engine, query, speaker, None)) <$> first :: pre).
Proof.
  cbv zeta. intros Hv Hwrite Hpre Hbad. unfold multi_synthesis.
  rewrite (bind_returned _ _ _ _ _ (get_engine_resolved app _ _ w Hv)).
  unfold bind at 1. unfold named_temporary_file at 1.
  unfold bind at 1.
  edestruct (multi_synthesis_loop_prefix engine speaker
               (outputSamplingRate first)
               (Collaborator.temporary_name env (temporaries w))
               (first :: pre) (bad :: post) Hwrite Hpre 0)
    as (w1 & Hrun & Htemp & Hsyn & _).
  change (first :: pre ++ bad :: post) with ((first :: pre) ++ bad :: post).
  rewrite Hrun. cbn [multi_synthesis_loop].
  apply Z.eqb_neq in Hbad. rewrite Hbad. cbn [negb raise].
  exists w1. split; [done|].
  rewrite Htemp, Hsyn. cbn [temporaries calls length].
  rewrite !omap_app. cbn [omap list_omap synthesized].
  rewrite !(right_id_L [] (++)). split; [lia|done].
Qed.

(** When the loop comes to its end, every query had the rate asked for and
    was synthesized. *)
Lemma multi_synthesis_loop_returned engine speaker rate archive queries :
  ∀ i w w',
    multi_synthesis_loop app engine speaker rate archive i queries w =
      (Returned tt, w') →
    Forall (λ query,
              outputSamplingRate query = rate ∧
              ∃ wave, Collaborator.synthesis env engine query speaker None =
                        Returned wave) queries.
Proof.
  induction queries as [|query queries IH]; intros i w w'; [done|].
  cbn [multi_synthesis_loop].
  destruct (Z.eqb_spec (outputSamplingRate query) rate) as [Hrate|_];
    cbn [negb]; [|done].
  unfold write_wav, bind, temporary_file, call.
  destruct (Collaborator.synthesis env engine query speaker None)
    as [wave|e] eqn:Hsynth; [|done].
  destruct (Collaborator.soundfile_write _ _ _ _); [|done].
  intros Hrest. constructor; [eauto|]. by eapply IH.
Qed.

(** X12 (when [multi_synthesis] returns): an empty list of queries makes
    [multi_synthesis] raise [IndexError] before any file is created; and
    whenever it returns a response, the list is not empty, every query has
    the sampling rate of the first and was synthesized, and the response
    is the archive created at this request. *)
Theorem multi_synthesis_returned queries speaker v w :
  (is_Some (engine_for app v) →
   multi_synthesis app [] speaker v w = (Raised IndexError, w)) ∧
  (∀ resp w',
     multi_synthesis app queries speaker v w = (Returned resp, w') →
     ∃ engine first,
       engine_for app v = Some engine ∧ head queries = Some first ∧
       resp = FileResponse
                (Collaborator.temporary_name env (temporaries w))
                "application/zip" ∧
       Forall (λ query,
                 outputSamplingRate query = outputSamplingRate first ∧
                 ∃ wave,
                   Collaborator.synthesis env engine query speaker None =
                     Returned wave) queries).
Proof.
  split.
  - intros [engine Hv]. unfold multi_synthesis.
    by rewrite (bind_returned _ _ _ _ _ (get_engine_resolved app _ _ w Hv)).
  - intros resp w'. unfold multi_synthesis. unfold bind at 1.
    destruct (get_engine app v w) as [[engine|e] w0] eqn:Hg; [|done].
    assert (Hv : engine_for app v = Some engine ∧ w0 = w).
    { revert Hg. unfold get_engine, engine_for, ret, raise.
      by repeat case_match; intros [= <- <-]. }
    destruct Hv as [Hv ->].
    destruct queries as [|first rest]; [done|].
    unfold bind at 1. unfold named_temporary_file at 1.
    unfold bind at 1.
    destruct (multi_synthesis_loop _ _ _ _ _ _ _ _) as [[[]|e] w1] eqn:Hrun;
      [|done].
    intros [= <- <-]. exists engine, first. split_and!; [done..|].
    by eapply multi_synthesis_loop_returned.
Qed.

(** *** The engine that a request reaches *)

Lemma confined_ret engine {A} (a : A) : confined engine (ret a : MM A).
Proof. intros w. exists []. by rewrite (right_id_L [] (++)). Qed.

Lemma confined_raise engine {A} e : confined engine (raise e : MM A).
Proof. intros w. exists []. by rewrite (right_id_L [] (++)). Qed.

Lemma confined_call engine {A} c (r : outcome A) :
  (∀ engine', engine_of c = Some engine' → engine' = engine) →
  confined engine (call c r : MM A).
Proof. intros Hc w. exists [c]. split; [done|]. by constructor. Qed.

Lemma confined_bind engine {A B} (m : MM A) (k : A → MM B) :
  confined engine m → (∀ a, confined engine (k a)) →
  confined engine (bind m k).
Proof.
  intros Hm Hk w. unfold bind. destruct (Hm w) as (cs & Hcs & Hall).
  destruct (m w) as [[a|e] w']; [|by exists cs].
  destruct (Hk a w') as (ds & Hds & Hall'). exists (cs ++ ds).
  cbn [snd] in Hcs. rewrite Hds, Hcs, (assoc_L (++)). split; [done|].
  by apply Forall_app.
Qed.

Lemma confined_try engine {A} (m : MM A) handler :
  confined engine m → (∀ e h, handler e = Some h → confined engine h) →
  confined engine (try_except m handler).
Proof.
  intros Hm Hh w. unfold try_except. destruct (Hm w) as (cs & Hcs & Hall).
  destruct (m w) as [[a|e] w']; [by exists cs|].
  destruct (handler e) as [h|] eqn:E; [|by exists cs].
  destruct (Hh e h E w') as (ds & Hds & Hall'). exists (cs ++ ds).
  cbn [snd] in Hcs. rewrite Hds, Hcs, (assoc_L (++)). split; [done|].
  by apply Forall_app.
Qed.

Lemma confined_named_temporary_file engine :
  confined engine (named_temporary_file env).
Proof. intros w. eexists [_]. split; [done|]. by constructor. Qed.

Lemma confined_temporary_file engine : confined engine (temporary_file app).
Proof. intros w. eexists [_]. split; [done|]. by constructor. Qed.

Lemma confined_get_engine engine {A} v (k : Engine → MM A) :
  engine_for app v = Some engine →
  confined engine (k engine) →
  confined engine (bind (get_engine app v) k).
Proof.
  intros Hv Hk w.
  by rewrite (bind_returned _ _ _ _ _ (get_engine_resolved app _ _ w Hv)).
Qed.

Lemma confined_morphing_parameter engine query base_speaker target_speaker :
  confined engine
    (synthesis_morphing_parameter app engine query base_speaker
       target_speaker).
Proof.
  intros w. unfold synthesis_morphing_parameter. cbv zeta.
  destruct (cache_find _ _).
  - exists []. by rewrite (right_id_L [] (++)).
  - destruct (Collaborator._synthesis_morphing_parameter _ _ _ _ _);
      (eexists [_]; split; [done|]);
      (constructor; [|done]); by intros ? [= <-].
Qed.

Lemma confined_forced_alignment engine {A} stop e (h : MM A) :
  forced_alignment_clauses stop e = Some h → confined engine h.
Proof.
  unfold forced_alignment_clauses.
  repeat case_match; intros [= <-]; apply confined_raise.
Qed.

Ltac confined_step :=
  first
    [ apply confined_ret | apply confined_raise
    | apply confined_call; cbn; congruence
    | apply confined_named_temporary_file | apply confined_temporary_file
    | apply confined_morphing_parameter
    | apply confined_get_engine; [eassumption|]
    | apply confined_bind; [|intros ?]
    | apply confined_try; [|intros ? ?] ].

Ltac confined_clause :=
  let H := fresh in
  intros H;
  repeat case_match; simplify_eq;
  first [ apply confined_raise | apply confined_ret
        | eapply confined_forced_alignment; eassumption ].

Lemma confined_multi_synthesis_loop engine speaker rate archive i queries :
  confined engine
    (multi_synthesis_loop app engine speaker rate archive i queries).
Proof.
  revert i. induction queries as [|q queries IH]; intros i; simpl.
  - apply confined_ret.
  - case_match; [apply confined_raise|]. unfold write_wav.
    repeat confined_step. apply IH.
Qed.

(** X13 (one engine per request): when the [core_version] of a request
    selects an engine, every call to an engine that the request makes
    (accent phrases, mora data, synthesis, guided synthesis, the morphing
    parameter, speaker information) goes to that engine. *)
Theorem request_uses_selected_engine r v engine w :
  core_version_of r = Some v →
  engine_for app v = Some engine →
  ∃ cs, calls (handle app r w).2 = calls w ++ cs ∧
        Forall (λ c, ∀ engine', engine_of c = Some engine' →
                                engine' = engine) cs.
Proof.
  intros Hr Hv. revert w. change (confined engine (handle app r)).
  destruct r; cbn in Hr; simplify_eq; cbn [handle];
    unfold answer, audio_query, audio_query_from_preset,
      accent_phrases, guided_accent_phrase, mora_data, mora_length,
      mora_pitch, synthesis, cancellable_synthesis, multi_synthesis,
      _synthesis_morphing, guided_synthesis, speakers,
      speaker_info, supported_devices, parse_kana_or_400, write_wav;
    repeat first
      [ confined_step
      | apply confined_multi_synthesis_loop
      | progress case_match ];
    confined_clause.
Qed.

(** *** The file of a file response *)

Lemma get_engine_run v w :
  get_engine app v w =
    (match engine_for app v with
     | Some engine => Returned engine
     | None =>
         Raised match v with
                | None => KeyError (latest_core_version app)
                | Some _ => HTTPException 422 unknown_version
                end
     end, w).
Proof.
  unfold get_engine, engine_for, ret, raise.
  destruct v; by destruct (_ !! _).
Qed.

(** The loop of [multi_synthesis] creates no named file. *)
Lemma multi_synthesis_loop_anonymous engine speaker rate archive queries :
  ∀ i w, ∃ cs,
    calls (multi_synthesis_loop app engine speaker rate archive i queries
             w).2 = calls w ++ cs ∧
    ∀ name, CallNamedTemporaryFile name ∉ cs.
Proof.
  induction queries as [|query queries IH]; intros i w.
  - exists []. split; [by rewrite (right_id_L [] (++))|]. intros name.
    apply not_elem_of_nil.
  - cbn [multi_synthesis_loop]. case_match.
    { exists []. split; [by rewrite (right_id_L [] (++))|]. intros name.
      apply not_elem_of_nil. }
    unfold write_wav, bind, temporary_file, call.
    destruct (Collaborator.synthesis _ _ _ _ _) as [wave|e].
    2:{ eexists [_; _]. cbn. rewrite <- !(assoc_L (++)). split; [done|].
        intros name. rewrite !not_elem_of_cons. split_and!; try done.
        apply not_elem_of_nil. }
    destruct (Collaborator.soundfile_write _ _ _ _).
    2:{ eexists [_; _; _]. cbn. rewrite <- !(assoc_L (++)). split; [done|].
        intros name. rewrite !not_elem_of_cons. split_and!; try done.
        apply not_elem_of_nil. }
    match goal with |- context [multi_synthesis_loop _ _ _ _ _ ?j _ ?w1] =>
      destruct (IH j w1) as (cs & -> & Hcs) end.
    eexists ([_; _; _; _] ++ cs). cbn [logged calls].
    rewrite <- !(assoc_L (++)). split; [done|].
    intros name. cbn. rewrite !not_elem_of_cons. by split_and!.
Qed.

Ltac returned_file :=
  intros; simplify_eq; cbn [logged calls temporaries];
  rewrite <- ?(assoc_L (++));
  split; [done|]; split; [|done];
  eexists; split; [done|];
  intros ?; cbn; rewrite !elem_of_cons, elem_of_nil;
  split; [intros ?; destruct_or!; by simplify_eq|intros ->; auto].

(** X14 (file responses name new files): apart from
    [cancellable_synthesis], whose file comes from another process, a
    handler that returns a file response returns the named temporary file
    that it created during this request, and has created no named file
    but this one; the response is a ZIP archive from [multi_synthesis] and
    a WAV file from every other endpoint. *)
Theorem file_response_is_fresh r w path media_type w' :
  handle app r w = (Returned (FileResponse path media_type), w') →
  guard_of r ≠ CancellableGuard →
  path = Collaborator.temporary_name env (temporaries w) ∧
  (∃ cs, calls w' = calls w ++ cs ∧
         ∀ name, CallNamedTemporaryFile name ∈ cs ↔ name = path) ∧
  media_type =
    match r with
    | MultiSynthesisRequest _ _ _ => "application/zip"
    | _ => "audio/wav"
    end.
Proof.
  intros Hrun Hguard. destruct r; cbn [handle guard_of] in *; try done.
  all: revert Hrun.
  all: try (unfold answer, bind, ret; repeat case_match; by intros).
  - unfold synthesis. unfold bind at 1. rewrite get_engine_run.
    destruct (engine_for app core_version); [|done].
    unfold write_wav, bind, call, named_temporary_file, ret, wav_response.
    repeat case_match; try done. returned_file.
  - unfold multi_synthesis. unfold bind at 1. rewrite get_engine_run.
    destruct (engine_for app core_version) as [engine|]; [|done].
    destruct queries as [|first rest]; [done|].
    unfold bind at 1. unfold named_temporary_file at 1. unfold bind, ret.
    match goal with
    | |- context [multi_synthesis_loop _ ?e ?s ?rt ?f ?i ?qs ?w1] =>
      destruct (multi_synthesis_loop_anonymous e s rt f qs i w1)
        as (cs & Hcs & Hnone);
      destruct (multi_synthesis_loop app e s rt f i qs w1) as [[[]|?] w2]
    end; [|done].
    intros [= <- <- <-]. cbn [snd calls temporaries] in *.
    split; [done|]. split; [|done]. rewrite Hcs, <- (assoc_L (++)).
    eexists. split; [done|]. intros name. cbn. rewrite elem_of_cons.
    split; [intros [[= ->]|Hin]; [done|by destruct (Hnone name)]|].
    intros ->. by left.
  - unfold _synthesis_morphing. unfold bind at 1. rewrite get_engine_run.
    destruct (engine_for app core_version) as [engine|]; [|done].
    unfold bind at 1. unfold synthesis_morphing_parameter. cbv zeta.
    unfold write_wav, bind, call, named_temporary_file, ret, wav_response.
    repeat case_match; try done; returned_file.
  - unfold guided_synthesis. case_match; [done|].
    unfold bind at 1. rewrite get_engine_run.
    destruct (engine_for app core_version) as [engine|]; [|done].
    unfold try_except, forced_alignment_clauses, write_wav, bind, call,
      named_temporary_file, ret, raise, wav_response.
    repeat case_match; simplify_eq; try done; returned_file.
  - unfold speakers, bind, ret. by repeat case_match.
  - unfold speaker_info, bind, call, ret. by repeat case_match.
  - unfold supported_devices, bind, ret, raise. by repeat case_match.
  - unfold connect_waves, try_except, write_wav, bind, call,
      named_temporary_file, ret, wav_response.
    repeat case_match; simplify_eq; try done; returned_file.
Qed.


(** X15 (synthesizing a new query): in an app built by [generate_app], a
    query returned by [audio_query] and then passed to [synthesis] is
    written at the default sampling rate of the engine of the latest core
    version, whichever engines the two requests select; the wave is the
    one that the engine selected by the second request gives for it. *)
Theorem synthesis_of_new_query collab arguments engines latest
    (app' : @App Engine Wave MorphingParameter Upload)
    text speaker v w q w1 speaker' upspeak v' engine' wave :
  generate_app collab arguments engines latest = Returned app' →
  audio_query app' text speaker v w = (Returned q, w1) →
  engine_for app' v' = Some engine' →
  Collaborator.synthesis collab engine' q speaker' (Some upspeak) =
    Returned wave →
  ∃ latest_engine,
    engines !! latest = Some latest_engine ∧
    let f := Collaborator.temporary_name collab (temporaries w1) in
    calls (synthesis app' q speaker' upspeak v' w1).2 =
      calls w1 ++
      [CallSynthesis engine' q speaker' (Some upspeak);
       CallNamedTemporaryFile f;
       CallSoundfileWrite f wave
         (Collaborator.default_sampling_rate collab latest_engine)].
Proof.
  unfold generate_app.
  destruct (engines !! latest) as [latest_engine|] eqn:E; [|done].
  intros [= <-] Hquery Hv Hsynth. exists latest_engine. split; [done|].
  assert (Hrate : outputSamplingRate q =
                  Collaborator.default_sampling_rate collab latest_engine).
  { revert Hquery. unfold audio_query, bind, call, ret.
    repeat case_match; try done. by intros [= <- _]. }
  cbv zeta. unfold synthesis.
  rewrite (bind_returned _ _ _ _ _ (get_engine_resolved _ _ _ w1 Hv)).
  unfold write_wav, bind, call, named_temporary_file, ret.
  cbn [collaborators]. rewrite Hsynth, Hrate.
  cbn [logged calls temporaries].
  destruct (Collaborator.soundfile_write _ _ _ _);
    cbn [snd logged calls]; by rewrite <- !(assoc_L (++)).
Qed.

End Handlers.

Section UserDict.

Context {UserDictWord WordTypes : Type}.
Context (user_dict : @UserDict UserDictWord WordTypes).


End UserDict.

(** *** Instances *)

Lemma query_sampling_rate_is_latest_witness :
  ∃ engine : Sample.Engine,
    ({[ "0.14.0" := 0 ]} : gmap string Sample.Engine) !! "0.14.0" =
      Some engine ∧
    (∀ text speaker v w q w',
       audio_query Sample.app text speaker v w = (Returned q, w') →
       outputSamplingRate q =
         Collaborator.default_sampling_rate Sample.env engine ∧
       outputStereo q = false) ∧
    (∀ text preset_id v w q w',
       audio_query_from_preset Sample.app text preset_id v w =
         (Returned q, w') →
       outputSamplingRate q =
         Collaborator.default_sampling_rate Sample.env engine ∧
       outputStereo q = false).
Proof.
  apply (query_sampling_rate_is_latest Sample.env
           {| enable_cancellable_synthesis := false;
              enable_guided_synthesis := false |}
           {[ "0.14.0" := 0 ]} "0.14.0" Sample.app).
  reflexivity.
Defined.


Lemma preset_errors_witness :
  get_presets Scenario.faulty_app Sample.world =
    (Raised (HTTPException 422 (DetailStr "presets.yaml does not parse")),
     logged Sample.world [CallLoadPresets]) ∧
  audio_query_from_preset Scenario.faulty_app [Sample.KA] 1 None
    Sample.world =
    (Raised (HTTPException 422 (DetailStr "presets.yaml does not parse")),
     logged Sample.world [CallLoadPresets]).
Proof.
  apply (proj1 (preset_errors Scenario.faulty_app [Sample.KA] 1%Z None 0
                  [Sample.preset] "presets.yaml does not parse"
                  Sample.world eq_refl eq_refl)).
  discriminate.
Defined.

Lemma disabled_feature_is_404_witness :
  handle Sample.app
    (GuidedAccentPhraseRequest [Sample.KA] 0 false tt false None)
    Sample.world =
    (Raised (HTTPException 404 experimental_disabled), Sample.world).
Proof.
  apply (disabled_feature_is_404 Sample.app
           (GuidedAccentPhraseRequest [Sample.KA] 0 false tt false None)
           Sample.world).
  reflexivity.
Defined.



Lemma only_morphing_changes_cache_witness :
  let rs := [AudioQueryRequest [Sample.KA] 0 None;
             SynthesisRequest Sample.query 0 true None;
             MultiSynthesisRequest [Sample.query] 0 None] in
  Forall (λ r, ∀ w', morph_cache (handle Sample.app r w').2 = morph_cache w')
    rs ∧
  morph_cache (serve Sample.app rs Sample.world) = morph_cache Sample.world.
Proof.
  apply (only_morphing_changes_cache Sample.app).
  by repeat constructor.
Defined.

Lemma morphing_parameter_reused_witness :
  let w1 := (_synthesis_morphing Sample.app Sample.query 1 2 (1 # 2)%Q None
               Sample.world).2 in
  let w2 := serve Sample.app [SynthesisRequest Sample.query 0 true None] w1 in
  let w3 := (_synthesis_morphing Sample.app Sample.query 1 2 (1 # 4)%Q
               (Some "0.14.0") w2).2 in
  ∃ cs, calls w3 = calls w2 ++ cs ∧
        Forall (λ c, computes_parameter c = false) cs.
Proof.
  apply (morphing_parameter_reused Sample.app Sample.query 1%Z 2%Z
           (1 # 2)%Q (1 # 4)%Q None (Some "0.14.0") 0
           [SynthesisRequest Sample.query 0 true None] Sample.world).
  - reflexivity.
  - reflexivity.
  - by repeat constructor.
  - right. by eexists.
Defined.

Lemma morphing_failure_not_cached_witness :
  let key : @MorphKey Sample.Engine := (0, Sample.query, 1%Z, 2%Z) in
  let w1 := {| morph_cache := morph_cache Sample.world;
               calls := calls Sample.world ++ [CallMorphingParameter key];
               temporaries := temporaries Sample.world |} in
  _synthesis_morphing Scenario.faulty_app Sample.query 1 2 (1 # 2)%Q None
    Sample.world = (Raised (Exception "no such speaker"), w1) ∧
  _synthesis_morphing Scenario.faulty_app Sample.query 1 2 (1 # 4)%Q None
    w1 =
    (Raised (Exception "no such speaker"),
     {| morph_cache := morph_cache Sample.world;
        calls := calls Sample.world ++ [CallMorphingParameter key;
                                        CallMorphingParameter key];
        temporaries := temporaries Sample.world |}).
Proof.
  apply (morphing_failure_not_cached Scenario.faulty_app Sample.query 1%Z
           2%Z (1 # 2)%Q (1 # 4)%Q None None 0
           (Exception "no such speaker") Sample.world);
    reflexivity.
Defined.


Lemma multi_synthesis_rejects_late_witness :
  ∃ w',
    multi_synthesis Sample.app [Sample.query; Scenario.resampled] 0 None
      Sample.world =
      (Raised (HTTPException 422 sampling_rate_differs), w') ∧
    temporaries w' = temporaries Sample.world + 2 + 0 ∧
    omap synthesized (calls w') =
      omap synthesized (calls Sample.world) ++
      [(0, Sample.query, 0%Z, None)].
Proof.
  apply (multi_synthesis_rejects_late Sample.app Sample.query []
           Scenario.resampled [] 0%Z None 0 Sample.world).
  - reflexivity.
  - reflexivity.
  - repeat constructor. by eexists.
  - discriminate.
Defined.

Lemma multi_synthesis_returned_witness :
  multi_synthesis Sample.app [] 0 None Sample.world =
    (Raised IndexError, Sample.world) ∧
  ∃ engine first,
    engine_for Sample.app None = Some engine ∧
    head [Sample.query] = Some first ∧
    FileResponse "/tmp/out" "application/zip" =
      FileResponse
        (Collaborator.temporary_name Sample.env (temporaries Sample.world))
        "application/zip" ∧
    Forall (λ query,
              outputSamplingRate query = outputSamplingRate first ∧
              ∃ wave,
                Collaborator.synthesis Sample.env engine query 0 None =
                  Returned wave) [Sample.query].
Proof.
  split.
  - apply (proj1 (multi_synthesis_returned Sample.app [] 0%Z None
                    Sample.world)).
    by eexists.
  - eapply (proj2 (multi_synthesis_returned Sample.app [Sample.query] 0%Z
                     None Sample.world)).
    by vm_compute.
Defined.

Lemma request_uses_selected_engine_witness :
  ∃ cs,
    calls (handle Sample.app
             (MultiSynthesisRequest [Sample.query] 0 (Some "0.14.0"))
             Sample.world).2 = calls Sample.world ++ cs ∧
    Forall (λ c, ∀ engine', engine_of c = Some engine' → engine' = 0) cs.
Proof.
  apply (request_uses_selected_engine Sample.app
           (MultiSynthesisRequest [Sample.query] 0 (Some "0.14.0"))
           (Some "0.14.0") 0 Sample.world); reflexivity.
Defined.

Lemma file_response_is_fresh_witness :
  let r := SynthesisRequest Sample.query 0 true None in
  "/tmp/out" =
    Collaborator.temporary_name Sample.env (temporaries Sample.world) ∧
  (∃ cs, calls (handle Sample.app r Sample.world).2 =
           calls Sample.world ++ cs ∧
         ∀ name, CallNamedTemporaryFile name ∈ cs ↔ name = "/tmp/out") ∧
  "audio/wav" = "audio/wav".
Proof.
  apply (file_response_is_fresh Sample.app
           (SynthesisRequest Sample.query 0 true None) Sample.world
           "/tmp/out" "audio/wav"
           (handle Sample.app (SynthesisRequest Sample.query 0 true None)
              Sample.world).2).
  - by vm_compute.
  - discriminate.
Defined.

Lemma synthesis_of_new_query_witness :
  ∃ latest_engine : Sample.Engine,
    ({[ "0.14.0" := 0 ]} : gmap string Sample.Engine) !! "0.14.0" =
      Some latest_engine ∧
    let w1 := logged Sample.world [CallCreateAccentPhrases 0 [Sample.KA] 0%Z]
    in
    calls (synthesis Sample.app Sample.query 3 true (Some "0.14.0") w1).2 =
      calls w1 ++
      [CallSynthesis 0 Sample.query 3%Z (Some true);
       CallNamedTemporaryFile "/tmp/out";
       CallSoundfileWrite "/tmp/out" []
         (Collaborator.default_sampling_rate Sample.env latest_engine)].
Proof.
  apply (synthesis_of_new_query Sample.env
           {| enable_cancellable_synthesis := false;
              enable_guided_synthesis := false |}
           {[ "0.14.0" := 0 ]} "0.14.0" Sample.app
           [Sample.KA] 0%Z None Sample.world Sample.query
           (logged Sample.world [CallCreateAccentPhrases 0 [Sample.KA] 0%Z])
           3%Z true (Some "0.14.0") 0 []).
  - reflexivity.
  - by vm_compute.
  - reflexivity.
  - reflexivity.
Defined.

End EndpointFacts.
